(** * Match-ardex-data: the reward matcher of [match_ardex_data.py]

    A shallow embedding of [prepare_data] and [match_data] and the
    properties of the greedy, first-fit, one-to-one assignment they
    implement.

    Conventions of the embedding:
    - a DataFrame is the list of its rows; the index is the default
      [RangeIndex] that [load_file] produces, so the label of a row is its
      position;
    - a Python [str] is the [string] of its UTF-8 bytes.  On ASCII text a
      byte is a character, and [lower], [last_chars] and [is_digit] are
      [str.lower], slicing and the digit class of the pattern there; the
      properties that depend on characters are stated for such text;
    - the cells of a frame have the types of the data model: strings for
      names, phone numbers, suffixes and flags, dates, floats.  A cell of
      another type in a column line 115 reads (a number under
      [last_10_digits], a missing name) makes the join raise [TypeError] or
      [AttributeError]; such frames are outside the embedding, and what is
      proved of a run is proved of a run that returns;
    - a [datetime.date] is its proleptic Gregorian ordinal
      ([date.toordinal()]), and adding a [timedelta] raises [OverflowError]
      outside [date.min .. date.max], as in Python;
    - a Python [float] is a binary64 [spec_float]; [==] is IEEE equality, so
      NaN is different from every value, itself included;
    - an exception is a value [Raise e] of the error monad [result]. *)

From Stdlib Require Import ZArith String Ascii Bool Lia.
From Stdlib Require Import Floats.SpecFloat.
From stdpp Require Import base option list sorting strings.

Local Open Scope string_scope.

(** ** Exceptions *)

(** The exceptions [match_data] raises on frames whose cells have the types
    of the data model. *)
Inductive exn : Type :=
| KeyError (column : string)
| OverflowError.

Inductive result (A : Type) : Type :=
| Ok (a : A)
| Raise (e : exn).
Arguments Ok {A} a.
Arguments Raise {A} e.

(** Sequencing: an exception raised by [m] leaves through [bind m k]. *)
Definition bind {A B : Type} (m : result A) (k : A -> result B) : result B :=
  match m with
  | Ok a => k a
  | Raise e => Raise e
  end.

Notation "'let*' x ':=' m 'in' k" := (bind m (fun x => k))
  (at level 10, x name, m at level 100, k at level 200).

(** ** Python strings *)

(** [c.lower()] on an ASCII character; other bytes are left as they are. *)
Definition lower_char (c : ascii) : ascii :=
  let n := nat_of_ascii c in
  if (65 <=? n)%nat && (n <=? 90)%nat then ascii_of_nat (n + 32) else c.

(** [s.lower()] on ASCII text.  On other text [str.lower] also maps the
    cased letters outside ASCII, which this function leaves. *)
Fixpoint lower (s : string) : string :=
  match s with
  | EmptyString => EmptyString
  | String c t => String (lower_char c) (lower t)
  end.

(** [s.endswith(suffix)] *)
Fixpoint endswith (s suffix : string) : bool :=
  String.eqb s suffix ||
  match s with
  | EmptyString => false
  | String _ t => endswith t suffix
  end.

(** [sub in s] *)
Fixpoint contains (sub s : string) : bool :=
  String.prefix sub s ||
  match s with
  | EmptyString => false
  | String _ t => contains sub t
  end.

(** [s[-n:]] for [n > 0], on ASCII text: the last [n] bytes, which are the
    last [n] characters there. *)
Definition last_chars (n : nat) (s : string) : string :=
  substring (String.length s - n) n s.

(** ** Calendar dates *)

(** A [datetime.date], as its ordinal: 0001-01-01 is day 1. *)
Definition date : Type := Z.

Definition MINORDINAL : Z := 1.
Definition MAXORDINAL : Z := 3652059.

Definition valid_date (d : date) : Prop := (MINORDINAL <= d <= MAXORDINAL)%Z.

Definition is_leap (y : Z) : bool :=
  ((y mod 4 =? 0) && (negb (y mod 100 =? 0) || (y mod 400 =? 0)))%Z.

Definition days_before_year (y : Z) : Z :=
  let y1 := (y - 1)%Z in
  (y1 * 365 + y1 / 4 - y1 / 100 + y1 / 400)%Z.

Definition days_in_month (y m : Z) : Z :=
  if (m =? 2)%Z then (if is_leap y then 29 else 28)%Z
  else if ((m =? 4) || (m =? 6) || (m =? 9) || (m =? 11))%Z then 30%Z
  else 31%Z.

Fixpoint days_before_month_aux (y : Z) (k : nat) : Z :=
  match k with
  | O => 0%Z
  | S k' => (days_before_month_aux y k' + days_in_month y (Z.of_nat k))%Z
  end.

Definition days_before_month (y m : Z) : Z :=
  days_before_month_aux y (Z.to_nat (m - 1)).

(** [date(y, m, d).toordinal()] *)
Definition ymd2ord (y m d : Z) : date :=
  (days_before_year y + days_before_month y m + d)%Z.

(** [d + timedelta(days=n)] *)
Definition date_add_days (d : date) (n : Z) : result date :=
  let o := (d + n)%Z in
  if ((MINORDINAL <=? o) && (o <=? MAXORDINAL))%Z then Ok o
  else Raise OverflowError.

(** ** Floats *)

Definition float : Type := spec_float.

Definition nan : float := S754_nan.

(** [x == y] on floats *)
Definition float_eq (x y : float) : bool := SFeqb x y.

(** [float(n)] for an integer [n]: rounded to the nearest binary64. *)
Definition float_of_Z (n : Z) : float := binary_normalize 53 1024 n 0 false.

(** ** The two frames *)

Module Primary.
(** A row of the prepared primary frame, with the columns [match_data]
    reads and the column [prepare_data] normalises.  [last_10_digits] is
    [None] when the frame has no such column: reading it then raises
    [KeyError]. *)
Record row : Type := {
  Event_ID : string;
  name : string;
  amount : float;
  Telephone_Number : string;
  Reported_At : date;
  CASHVIP : string;
  last_10_digits : option string
}.
End Primary.

Module Secondary.
(** The partner's columns of a secondary row.  ['CASHVIP?'] is [None]
    for a missing cell (NaN). *)
Record cols : Type := {
  Recipient_Phone_Number : string;
  Recipient : string;
  Order_Release_Date : date;
  Amount : float;
  CASHVIP_q : option string
}.

(** A row of the frame [match_data] works on: the partner's columns and
    the ['Event ID'] column added at its first line. *)
Record row : Type := {
  data : cols;
  Event_ID : option string
}.
End Secondary.

(** [row[column]] on a column that may be absent from the frame *)
Definition getitem {A : Type} (column : string) (cell : option A) : result A :=
  match cell with
  | Some v => Ok v
  | None => Raise (KeyError column)
  end.

(** ** [prepare_data] *)

Module Raw.
(** A row of the primary frame as loaded.  ['Reported At'] holds the
    calendar date [pd.to_datetime] reads from the cell, ['Telephone Number']
    the text [astype(str)] gives of the cell; [last_10_digits] is [Some]
    when the loaded file has a column of that name, holding text. *)
Record row : Type := {
  Event_ID : string;
  Given_Name : string;
  Family_Name : string;
  Reward_Name : string;
  Telephone_Number : string;
  Reported_At : date;
  last_10_digits : option string
}.
End Raw.

(** An ASCII digit: the class [\d] on text whose digits are ASCII. *)
Definition is_digit (c : ascii) : bool :=
  let n := nat_of_ascii c in (48 <=? n)%nat && (n <=? 57)%nat.

(** The longest run of ASCII digits at the head of [s]: what [\d+]
    consumes of text whose digits are ASCII. *)
Fixpoint digits_prefix (s : string) : string :=
  match s with
  | EmptyString => EmptyString
  | String c t => if is_digit c then String c (digits_prefix t) else EmptyString
  end.

(** [s] without the prefix [pre], when it starts with it. *)
Fixpoint strip_prefix (pre s : string) : option string :=
  match pre, s with
  | EmptyString, _ => Some s
  | String a pre', String b s' =>
      if Ascii.eqb a b then strip_prefix pre' s' else None
  | String _ _, EmptyString => None
  end.

(** The pattern [Â£(\d+)] matched at the head of [s]: the group. *)
Definition match_pound_here (s : string) : option string :=
  match strip_prefix "Â£" s with
  | Some t =>
      match digits_prefix t with
      | EmptyString => None
      | d => Some d
      end
  | None => None
  end.

(** [re.search(r'Â£(\d+)', s)]: the group of the leftmost match. *)
Fixpoint search_pound (s : string) : option string :=
  match match_pound_here s with
  | Some d => Some d
  | None =>
      match s with
      | EmptyString => None
      | String _ t => search_pound t
      end
  end.

Definition digit_value (c : ascii) : Z := Z.of_nat (nat_of_ascii c - 48).

Fixpoint int_of_digits_acc (acc : Z) (d : string) : Z :=
  match d with
  | EmptyString => acc
  | String c t => int_of_digits_acc (10 * acc + digit_value c) t
  end.

Definition int_of_digits (d : string) : Z := int_of_digits_acc 0 d.

(** [.str.extract(r'Â£(\d+)').astype(float)] on one cell *)
Definition extract_amount (reward_name : string) : float :=
  match search_pound reward_name with
  | Some d => float_of_Z (int_of_digits d)
  | None => nan
  end.

(** [lambda x: 'YES' if 'CASHVIP' in x else 'NO'] *)
Definition cashvip_label (x : string) : string :=
  if contains "CASHVIP" x then "YES" else "NO".

Definition prepare_row (r : Raw.row) : Primary.row :=
  {| Primary.Event_ID := Raw.Event_ID r;
     Primary.name := Raw.Given_Name r ++ " " ++ Raw.Family_Name r;
     Primary.amount := extract_amount (Raw.Reward_Name r);
     Primary.Telephone_Number := last_chars 10 (Raw.Telephone_Number r);
     Primary.Reported_At := Raw.Reported_At r;
     Primary.CASHVIP := cashvip_label (Raw.Reward_Name r);
     Primary.last_10_digits := Raw.last_10_digits r |}.

Definition prepare_data (primary : list Raw.row) (secondary : list Secondary.cols)
  : list Primary.row * list Secondary.cols :=
  (prepare_row <$> primary, secondary).

(** ** [match_data] *)

(** Python's short-circuit [a and b] on conditions that may raise. *)
Definition and_then (a b : result bool) : result bool :=
  let* x := a in if x then b else Ok false.

Infix "&&&" := and_then (at level 40, left associativity).

(** [isna(cell)] and [cell == 'YES'] on a cell that may be missing *)
Definition isna {A : Type} (cell : option A) : bool :=
  match cell with
  | Some _ => false
  | None => true
  end.

Definition cell_eq (cell : option string) (v : string) : bool :=
  match cell with
  | Some x => String.eqb x v
  | None => false
  end.

Section Predicates.
Variable p : Primary.row.
Variable s : Secondary.cols.

(** Line 115: phone number and name, on cells that are strings. *)
Definition join_predicate : result bool :=
  let* suffix := getitem "last_10_digits" (Primary.last_10_digits p) in
  Ok (endswith (Secondary.Recipient_Phone_Number s) suffix
        && String.eqb (lower (Primary.name p)) (lower (Secondary.Recipient s))).

(** Lines 118-119: the release date is after the report and within a week. *)
Definition released_after_report : bool :=
  (Primary.Reported_At p <? Secondary.Order_Release_Date s)%Z.

Definition released_within_week : result bool :=
  let* limit := date_add_days (Primary.Reported_At p) 7 in
  Ok (Secondary.Order_Release_Date s <=? limit)%Z.

Definition window_predicate : result bool :=
  Ok released_after_report &&& released_within_week.

(** Line 120. *)
Definition amount_predicate : bool :=
  float_eq (Primary.amount p) (Secondary.Amount s).

(** Lines 121-122. *)
Definition vip_predicate : bool :=
  (String.eqb (Primary.CASHVIP p) "YES" && cell_eq (Secondary.CASHVIP_q s) "YES")
  || (String.eqb (Primary.CASHVIP p) "" && isna (Secondary.CASHVIP_q s)).

(** The condition of the inner [if], lines 118-122. *)
Definition further_checks : result bool :=
  Ok released_after_report &&& released_within_week
    &&& Ok amount_predicate &&& Ok vip_predicate.

(** Both [if]s: the row pair is a match. *)
Definition is_match : result bool :=
  let* j := join_predicate in if j then further_checks else Ok false.
End Predicates.

Module State.
(** The variables [match_data] mutates. *)
Record t : Type := {
  secondary : list Secondary.row;
  unmatched_primary_indices : list nat;
  unmatched_secondary_indices : list nat
}.
End State.

(** [df.iterrows()]: the rows with their labels. *)
Definition iterrows {A : Type} (df : list A) : list (nat * A) := imap pair df.

(** The labels of the rows of a frame: [df.index.tolist()]. *)
Definition labels {A : Type} (rows : list (nat * A)) : list nat := fst <$> rows.

(** [l.remove(x)] for an [x] that is in [l]: drops its first occurrence. *)
Fixpoint remove (x : nat) (l : list nat) : list nat :=
  match l with
  | [] => []
  | y :: t => if decide (x = y) then t else y :: remove x t
  end.

(** [if x in l: l.remove(x)] *)
Definition discard (x : nat) (l : list nat) : list nat :=
  if decide (x ∈ l) then remove x l else l.

(** [secondary[secondary.index.isin(unmatched_secondary_indices)].iterrows()] *)
Definition available (st : State.t) : list (nat * Secondary.row) :=
  filter (λ r, r.1 ∈ State.unmatched_secondary_indices st)
         (iterrows (State.secondary st)).

(** The inner loop: the label of the first available row that matches. *)
Fixpoint first_match (p : Primary.row) (rows : list (nat * Secondary.row))
  : result (option nat) :=
  match rows with
  | [] => Ok None
  | (j, s) :: rest =>
      let* m := is_match p (Secondary.data s) in
      if m then Ok (Some j) else first_match p rest
  end.

(** [secondary.at[j, 'Event ID'] = v] *)
Definition set_event_id (j : nat) (v : string) (df : list Secondary.row)
  : list Secondary.row :=
  alter (λ s, {| Secondary.data := Secondary.data s;
                 Secondary.Event_ID := Some v |}) j df.

(** Lines 125-129. *)
Definition assign (i j : nat) (p : Primary.row) (st : State.t) : State.t :=
  {| State.secondary := set_event_id j (Primary.Event_ID p) (State.secondary st);
     State.unmatched_primary_indices :=
       discard i (State.unmatched_primary_indices st);
     State.unmatched_secondary_indices :=
       discard j (State.unmatched_secondary_indices st) |}.

(** One turn of the outer loop. *)
Definition match_row (i : nat) (p : Primary.row) (st : State.t) : result State.t :=
  let* found := first_match p (available st) in
  Ok (match found with
        | Some j => assign i j p st
        | None => st
        end).

(** The outer loop, lines 112-130. *)
Fixpoint match_rows (rows : list (nat * Primary.row)) (st : State.t)
  : result State.t :=
  match rows with
  | [] => Ok st
  | (i, p) :: rest => let* st' := match_row i p st in match_rows rest st'
  end.

(** Lines 105-109. *)
Definition initial (primary : list Primary.row) (secondary : list Secondary.cols)
  : State.t :=
  {| State.secondary :=
       (λ c, {| Secondary.data := c; Secondary.Event_ID := None |}) <$> secondary;
     State.unmatched_primary_indices := seq 0 (length primary);
     State.unmatched_secondary_indices := seq 0 (length secondary) |}.

(** [df.loc[labels]]: the rows of these labels, in the order of [labels]. *)
Fixpoint loc {A : Type} (df : list A) (labels : list nat) : result (list (nat * A)) :=
  match labels with
  | [] => Ok []
  | i :: rest =>
      match df !! i with
      | Some r => let* rows := loc df rest in Ok ((i, r) :: rows)
      | None => Raise (KeyError "label")
      end
  end.

Module Output.
(** The dictionary [match_data] returns.  A row of ['secondary'] carries
    the added boolean column; a row of ['missing_rewards'] has lost its
    ['Event ID']. *)
Record t : Type := {
  primary : list Primary.row;
  secondary : list (Secondary.row * bool);
  missing_events : list (nat * Primary.row);
  missing_rewards : list (nat * Secondary.cols)
}.
End Output.

Definition notnull {A : Type} (cell : option A) : bool := negb (isna cell).

Definition match_data (primary : list Primary.row) (secondary : list Secondary.cols)
  : result Output.t :=
  let* st := match_rows (iterrows primary) (initial primary secondary) in
  let* missing_events := loc primary (State.unmatched_primary_indices st) in
  let* missing_rewards := loc (State.secondary st) (State.unmatched_secondary_indices st) in
  Ok {| Output.primary := primary;
          Output.secondary :=
            (λ s, (s, notnull (Secondary.Event_ID s))) <$> State.secondary st;
          Output.missing_events := missing_events;
          Output.missing_rewards := prod_map id Secondary.data <$> missing_rewards |}.

(** [main], from the loaded frames to the returned dictionary. *)
Definition main (primary : list Raw.row) (secondary : list Secondary.cols)
  : result Output.t :=
  let prepared := prepare_data primary secondary in
  match_data prepared.1 prepared.2.

(** ** [load_file] *)

Section Loading.
Context {frame : Type}.

(** [pd.read_csv] and [pd.read_excel]: the frame read at a path, or the
    exception raised. *)
Variable read_csv : string -> result frame.
Variable read_excel : string -> result frame.

(** [load_file(filename)].  The [None] it yields is the [None] a Python
    function returns when no [return] is reached. *)
Definition load_file (filename : string) : result (option frame) :=
  if String.eqb (last_chars 3 filename) "csv" then
    let* df := read_csv filename in Ok (Some df)
  else if String.eqb (last_chars 4 filename) "xlsx" then
    let* df := read_excel filename in Ok (Some df)
  else Ok None.
End Loading.

(** ** Frames for the concrete runs *)

(** The primary row of the spec's example scenario.  Its reward is not a
    VIP reward, so its [CASHVIP] cell is the ['NO'] of [cashvip_label]; its
    phone suffix is put under the column line 115 reads. *)
Definition example_primary : Primary.row :=
  {| Primary.Event_ID := "E1";
     Primary.name := "jane doe";
     Primary.amount := float_of_Z 50;
     Primary.Telephone_Number := "5551234567";
     Primary.Reported_At := ymd2ord 2024 1 1;
     Primary.CASHVIP := "NO";
     Primary.last_10_digits := Some "5551234567" |}.

(** The secondary row of the example scenario: its ['CASHVIP?'] cell is
    missing. *)
Definition example_secondary : Secondary.cols :=
  {| Secondary.Recipient_Phone_Number := "+15551234567";
     Secondary.Recipient := "Jane Doe";
     Secondary.Order_Release_Date := ymd2ord 2024 1 3;
     Secondary.Amount := float_of_Z 50;
     Secondary.CASHVIP_q := None |}.

(** A VIP reward of 50 reported on 2024-01-01, as [prepare_data] leaves it
    when the loaded file has a [last_10_digits] column. *)
Definition vip_event (event_id : string) : Primary.row :=
  {| Primary.Event_ID := event_id;
     Primary.name := "jane doe";
     Primary.amount := float_of_Z 50;
     Primary.Telephone_Number := "5551234567";
     Primary.Reported_At := ymd2ord 2024 1 1;
     Primary.CASHVIP := "YES";
     Primary.last_10_digits := Some "5551234567" |}.

(** The same reward with a label that has no amount. *)
Definition unpriced_event (event_id : string) : Primary.row :=
  {| Primary.Event_ID := event_id;
     Primary.name := "jane doe";
     Primary.amount := extract_amount "CASHVIP gift";
     Primary.Telephone_Number := "5551234567";
     Primary.Reported_At := ymd2ord 2024 1 1;
     Primary.CASHVIP := "YES";
     Primary.last_10_digits := Some "5551234567" |}.

(** A VIP payout of [amount] to Jane Doe, released on [day] January 2024. *)
Definition vip_payout (amount : Z) (day : Z) : Secondary.cols :=
  {| Secondary.Recipient_Phone_Number := "+15551234567";
     Secondary.Recipient := "Jane Doe";
     Secondary.Order_Release_Date := ymd2ord 2024 1 day;
     Secondary.Amount := float_of_Z amount;
     Secondary.CASHVIP_q := Some "YES" |}.

(** A loaded primary row without a [last_10_digits] column. *)
Definition loaded_event : Raw.row :=
  {| Raw.Event_ID := "E1";
     Raw.Given_Name := "Jane";
     Raw.Family_Name := "Doe";
     Raw.Reward_Name := "CASHVIP Â£50";
     Raw.Telephone_Number := "+15551234567";
     Raw.Reported_At := ymd2ord 2024 1 1;
     Raw.last_10_digits := None |}.

(** A loaded primary row of a file that has a [last_10_digits] column. *)
Definition loaded_with_suffix (event_id reward_name : string) : Raw.row :=
  {| Raw.Event_ID := event_id;
     Raw.Given_Name := "Jane";
     Raw.Family_Name := "Doe";
     Raw.Reward_Name := reward_name;
     Raw.Telephone_Number := "+15551234567";
     Raw.Reported_At := ymd2ord 2024 1 1;
     Raw.last_10_digits := Some "5551234567" |}.

(** A VIP reward reported three days before [date.max], with a given
    amount. *)
Definition late_event (amount : float) : Primary.row :=
  {| Primary.Event_ID := "E9";
     Primary.name := "jane doe";
     Primary.amount := amount;
     Primary.Telephone_Number := "5551234567";
     Primary.Reported_At := ymd2ord 9999 12 28;
     Primary.CASHVIP := "YES";
     Primary.last_10_digits := Some "5551234567" |}.

(** A VIP payout of 50 released two days later. *)
Definition late_payout : Secondary.cols :=
  {| Secondary.Recipient_Phone_Number := "+15551234567";
     Secondary.Recipient := "Jane Doe";
     Secondary.Order_Release_Date := ymd2ord 9999 12 30;
     Secondary.Amount := float_of_Z 50;
     Secondary.CASHVIP_q := Some "YES" |}.


Local Close Scope string_scope.

(** ** Notions the properties are stated with *)

(** What the inner loop reads of the state: the secondary frame and the
    labels still unmatched in it. *)
Definition secondary_side (st : State.t) : list Secondary.row * list nat :=
  (State.secondary st, State.unmatched_secondary_indices st).

(** The dictionary of a run that assigns nothing. *)
Definition all_unmatched (primary : list Primary.row) (secondary : list Secondary.cols)
  : Output.t :=
  {| Output.primary := primary;
     Output.secondary :=
       (λ c, ({| Secondary.data := c; Secondary.Event_ID := None |}, false))
         <$> secondary;
     Output.missing_events := iterrows primary;
     Output.missing_rewards := iterrows secondary |}.

(** The state [st'] extends [st] with rows at the end of the secondary
    frame: they agree on the rows of [st]. *)
Definition extends (st st' : State.t) : Prop :=
  (∃ rest, State.secondary st' = State.secondary st ++ rest)
  ∧ ∀ j, j < length (State.secondary st) →
         j ∈ State.unmatched_secondary_indices st
         ↔ j ∈ State.unmatched_secondary_indices st'.

(** Text of 7-bit characters only. *)
Fixpoint ascii_text (s : string) : bool :=
  match s with
  | EmptyString => true
  | String c t => (nat_of_ascii c <? 128) && ascii_text t
  end.

(** ASCII text with pound signs as line 67 spells them: every character is
    a 7-bit one, or one of the two characters of the sign (in UTF-8 the
    bytes 195 130 and 194 163).  Such text has no digit but the ASCII
    ones. *)
Fixpoint pound_text (s : string) : bool :=
  match s with
  | EmptyString => true
  | String c t =>
      if (nat_of_ascii c <? 128) then pound_text t
      else
        match t with
        | EmptyString => false
        | String d t' =>
            (((nat_of_ascii c =? 195) && (nat_of_ascii d =? 130))
             || ((nat_of_ascii c =? 194) && (nat_of_ascii d =? 163)))
            && pound_text t'
        end
  end.

(** Rows in ascending label order. *)
Definition ascending {A : Type} (rows : list (nat * A)) : Prop :=
  StronglySorted lt rows.*1.

(** The state when the outer loop has handled the rows with labels below [k]. *)
Definition state_after (primary : list Primary.row) (secondary : list Secondary.cols)
    (k : nat) : result State.t :=
  match_rows (take k (iterrows primary)) (initial primary secondary).

(** What the inner loop finds at the turn of primary row [i]. *)
Definition turn (primary : list Primary.row) (secondary : list Secondary.cols)
    (i : nat) : result (option nat) :=
  let* st := state_after primary secondary i in
  match primary !! i with
  | Some p => first_match p (available st)
  | None => Ok None
  end.

(** Primary row [i] is assigned to secondary row [j]: lines 125-129 run for
    this pair. *)
Definition assigned (primary : list Primary.row) (secondary : list Secondary.cols)
    (i j : nat) : Prop :=
  turn primary secondary i = Ok (Some j).

(** What holds between two turns of the outer loop. *)
Record invariant (primary : list Primary.row) (secondary : list Secondary.cols)
    (k : nat) (st : State.t) : Prop := {
  inv_data : Secondary.data <$> State.secondary st = secondary;
  inv_primary_NoDup : NoDup (State.unmatched_primary_indices st);
  inv_secondary_NoDup : NoDup (State.unmatched_secondary_indices st);
  inv_unmatched_secondary : ∀ j,
    j ∈ State.unmatched_secondary_indices st ↔
    ∃ s, State.secondary st !! j = Some s ∧ Secondary.Event_ID s = None;
  inv_unmatched_primary : ∀ i,
    i ∈ State.unmatched_primary_indices st ↔
    i < length primary ∧ (k ≤ i ∨ turn primary secondary i = Ok None);
  inv_turns : ∀ i, i < k → ∃ found, turn primary secondary i = Ok found;
  inv_assigned : ∀ i j p,
    i < k → primary !! i = Some p → assigned primary secondary i j →
    ∃ s, State.secondary st !! j = Some s
         ∧ Secondary.Event_ID s = Some (Primary.Event_ID p);
  inv_event_id : ∀ j s e,
    State.secondary st !! j = Some s → Secondary.Event_ID s = Some e →
    ∃ i p, i < k ∧ primary !! i = Some p ∧ assigned primary secondary i j
           ∧ e = Primary.Event_ID p
}.

(** A primary row on which the match test raises neither of the two
    exceptions: the frame has the column [last_10_digits] and the end of
    the window is a calendar date. *)
Definition checkable (p : Primary.row) : Prop :=
  is_Some (Primary.last_10_digits p) ∧ valid_date (Primary.Reported_At p + 7)%Z.

(** * Properties *)

(** ** The error monad *)

Lemma bind_Ok {A B : Type} (m : result A) (k : A -> result B) (b : B) :
  bind m k = Ok b ↔ ∃ a, m = Ok a ∧ k a = Ok b.
Proof.
  destruct m as [a|e]; simpl.
  - split; [eauto | by intros (? & [= ->] & ?)].
  - split; [done | by intros (? & [=] & _)].
Qed.

Ltac inv_bind H :=
  repeat match type of H with
  | bind _ _ = Ok _ =>
      let a := fresh "a" in
      let Ha := fresh "Ha" in
      apply bind_Ok in H as (a & Ha & H)
  end.

(** ** Lists of labels *)

Lemma elem_of_remove (x y : nat) (l : list nat) :
  NoDup l → y ∈ remove x l ↔ y ∈ l ∧ y ≠ x.
Proof.
  induction l as [|z l IH]; simpl; intros Hnd.
  - split; [by intros ?%elem_of_nil | by intros [?%elem_of_nil _]].
  - apply NoDup_cons in Hnd as [Hz Hnd].
    destruct (decide (x = z)) as [->|Hne].
    + rewrite elem_of_cons. split; [|naive_solver].
      intros Hy. split; [by right|]. by intros ->.
    + rewrite !elem_of_cons, IH by done. naive_solver.
Qed.

Lemma remove_sublist (x : nat) (l : list nat) : remove x l `sublist_of` l.
Proof.
  induction l as [|z l IH]; simpl; [done|].
  destruct (decide (x = z)); [by apply sublist_cons | by apply sublist_skip].
Qed.

Lemma elem_of_discard (x y : nat) (l : list nat) :
  NoDup l → y ∈ discard x l ↔ y ∈ l ∧ y ≠ x.
Proof.
  intros Hnd. unfold discard. destruct (decide (x ∈ l)) as [Hx|Hx].
  - by apply elem_of_remove.
  - split; [|naive_solver]. intros Hy. split; [done|]. by intros ->.
Qed.

Lemma NoDup_discard (x : nat) (l : list nat) : NoDup l → NoDup (discard x l).
Proof.
  intros Hnd. unfold discard. destruct (decide (x ∈ l)); [|done].
  eapply sublist_NoDup; [done | apply remove_sublist].
Qed.

(** ** [iterrows] and [loc] *)

Lemma iterrows_lookup {A : Type} (df : list A) (i : nat) (r : nat * A) :
  iterrows df !! i = Some r ↔ r.1 = i ∧ df !! i = Some r.2.
Proof.
  unfold iterrows. rewrite list_lookup_imap_Some. destruct r as [j x]; simpl.
  split; [by intros (y & ? & [= -> ->]) | intros [-> ?]; eauto].
Qed.

Lemma elem_of_iterrows {A : Type} (df : list A) (i : nat) (x : A) :
  (i, x) ∈ iterrows df ↔ df !! i = Some x.
Proof.
  rewrite list_elem_of_lookup. split.
  - intros (k & Hk). apply iterrows_lookup in Hk as [<- ?]. done.
  - intros Hi. exists i. by apply iterrows_lookup.
Qed.

Lemma iterrows_labels {A : Type} (df : list A) :
  (iterrows df).*1 = seq 0 (length df).
Proof.
  apply list_eq. intros i. unfold iterrows.
  rewrite list_lookup_fmap, list_lookup_imap.
  destruct (df !! i) as [x|] eqn:Hi; simpl.
  - symmetry. apply lookup_seq. split; [done|]. by eapply lookup_lt_Some.
  - symmetry. apply lookup_seq_ge. by apply lookup_ge_None.
Qed.

Lemma iterrows_take_S {A : Type} (df : list A) (k : nat) (x : A) :
  df !! k = Some x →
  take (S k) (iterrows df) = take k (iterrows df) ++ [(k, x)].
Proof. intros Hk. apply take_S_r. by apply iterrows_lookup. Qed.

Lemma loc_Ok {A : Type} (df : list A) (labels : list nat) (rows : list (nat * A)) :
  loc df labels = Ok rows →
  rows.*1 = labels ∧ ∀ i x, (i, x) ∈ rows ↔ i ∈ labels ∧ df !! i = Some x.
Proof.
  revert rows. induction labels as [|i labels IH]; simpl; intros rows H.
  - injection H as <-. split; [done|]. intros i x.
    split; [by intros ?%elem_of_nil | by intros [?%elem_of_nil _]].
  - destruct (df !! i) as [r|] eqn:Hi; [|done].
    inv_bind H. injection H as <-. destruct (IH _ Ha) as [IH1 IH2].
    split; [by rewrite fmap_cons, IH1|].
    intros k x. rewrite !elem_of_cons, IH2. split.
    + intros [[= -> ->]|[? ?]]; eauto.
    + intros [[->|?] Hk]; [left; congruence | right; done].
Qed.

Lemma loc_returns {A : Type} (df : list A) (labels : list nat) :
  (∀ i, i ∈ labels → i < length df) → ∃ rows, loc df labels = Ok rows.
Proof.
  induction labels as [|i labels IH]; simpl; intros H; [eauto|].
  destruct (lookup_lt_is_Some_2 df i) as [r ->]; [apply H; by left|].
  destruct IH as [rows ->]; [intros; apply H; by right|]. simpl. eauto.
Qed.

(** ** Rows in ascending label order *)

Lemma StronglySorted_seq (j n : nat) : StronglySorted lt (seq j n).
Proof.
  revert j. induction n as [|n IH]; intros j; simpl; constructor; [apply IH|].
  apply Forall_forall. intros k Hk%elem_of_seq. lia.
Qed.

Lemma ascending_iterrows {A : Type} (df : list A) : ascending (iterrows df).
Proof. unfold ascending. rewrite iterrows_labels. apply StronglySorted_seq. Qed.

Lemma ascending_filter {A : Type} (P : nat * A → Prop) `{∀ r, Decision (P r)}
    (rows : list (nat * A)) :
  ascending rows → ascending (filter P rows).
Proof.
  unfold ascending. induction rows as [|r rows IH]; [done|].
  rewrite fmap_cons. intros [Hall Hs]%StronglySorted_cons.
  rewrite filter_cons. destruct (decide (P r)); [|by apply IH].
  rewrite fmap_cons. apply StronglySorted_cons. split; [|by apply IH].
  rewrite Forall_forall in Hall. apply Forall_forall.
  intros j (r' & -> & [_ Hr']%list_elem_of_filter)%list_elem_of_fmap.
  apply Hall. by apply list_elem_of_fmap_2.
Qed.

(** ** The inner loop *)

Lemma elem_of_available (st : State.t) (j : nat) (s : Secondary.row) :
  (j, s) ∈ available st ↔
  State.secondary st !! j = Some s ∧ j ∈ State.unmatched_secondary_indices st.
Proof.
  unfold available. rewrite list_elem_of_filter, elem_of_iterrows. simpl.
  split; intros [? ?]; done.
Qed.

Lemma ascending_available (st : State.t) : ascending (available st).
Proof. apply ascending_filter, ascending_iterrows. Qed.

Lemma first_match_None (p : Primary.row) (rows : list (nat * Secondary.row)) :
  first_match p rows = Ok None →
  ∀ j s, (j, s) ∈ rows → is_match p (Secondary.data s) = Ok false.
Proof.
  induction rows as [|[j0 s0] rows IH]; simpl; intros H j s Hin.
  - by apply elem_of_nil in Hin.
  - inv_bind H. destruct a; [done|].
    apply elem_of_cons in Hin as [[= -> ->]|Hin]; [done | by eapply IH].
Qed.

Lemma first_match_Some (p : Primary.row) (rows : list (nat * Secondary.row)) (j : nat) :
  ascending rows →
  first_match p rows = Ok (Some j) →
  ∃ s, (j, s) ∈ rows ∧ is_match p (Secondary.data s) = Ok true ∧
       ∀ j' s', (j', s') ∈ rows → j' < j →
                is_match p (Secondary.data s') = Ok false.
Proof.
  unfold ascending.
  induction rows as [|[j0 s0] rows IH]; simpl; intros Hasc H; [done|].
  apply StronglySorted_cons in Hasc as [Hall Hasc]. rewrite Forall_forall in Hall.
  inv_bind H. destruct a.
  - injection H as <-. exists s0. split; [by left|]. split; [done|].
    intros j' s' Hin Hlt. apply elem_of_cons in Hin as [[= -> ->]|Hin]; [lia|].
    assert (j0 < j') by (apply Hall; by apply (list_elem_of_fmap_2 fst _ (j', s'))).
    lia.
  - destruct (IH Hasc H) as (s & Hin & Hm & Hbefore).
    exists s. split; [by right|]. split; [done|].
    intros j' s' Hin' Hlt.
    apply elem_of_cons in Hin' as [[= -> ->]|Hin']; [done | by eapply Hbefore].
Qed.

(** ** The outer loop, turn by turn *)

Lemma match_rows_app (rows1 rows2 : list (nat * Primary.row)) (st : State.t) :
  match_rows (rows1 ++ rows2) st =
  let* st' := match_rows rows1 st in match_rows rows2 st'.
Proof.
  revert st. induction rows1 as [|[i p] rows1 IH]; intros st; simpl; [done|].
  destruct (match_row i p st) as [st'|e]; simpl; [apply IH | done].
Qed.

Section Turns.
Variable primary : list Primary.row.
Variable secondary : list Secondary.cols.

Lemma state_after_S (k : nat) (p : Primary.row) :
  primary !! k = Some p →
  state_after primary secondary (S k) =
  let* st := state_after primary secondary k in match_row k p st.
Proof.
  intros Hk. unfold state_after.
  rewrite (iterrows_take_S _ _ _ Hk), match_rows_app.
  destruct (match_rows _ _) as [st|e]; simpl; [|done].
  by destruct (match_row k p st).
Qed.

Lemma state_after_length :
  state_after primary secondary (length primary) =
  match_rows (iterrows primary) (initial primary secondary).
Proof.
  unfold state_after. rewrite take_ge; [done|].
  unfold iterrows. by rewrite length_imap.
Qed.

Lemma turn_eq (k : nat) (p : Primary.row) (st : State.t) :
  state_after primary secondary k = Ok st →
  primary !! k = Some p →
  turn primary secondary k = first_match p (available st).
Proof. intros Hst Hk. unfold turn. by rewrite Hst, Hk. Qed.

Lemma invariant_initial : invariant primary secondary 0 (initial primary secondary).
Proof.
  split; simpl.
  - rewrite <- list_fmap_compose. by apply list_fmap_id.
  - apply NoDup_seq.
  - apply NoDup_seq.
  - intros j. rewrite elem_of_seq. split.
    + intros [_ Hj]. destruct (lookup_lt_is_Some_2 secondary j) as [c Hc]; [lia|].
      exists {| Secondary.data := c; Secondary.Event_ID := None |}.
      split; [|done]. rewrite list_lookup_fmap. by rewrite Hc.
    + intros (s & Hs & _). apply lookup_lt_Some in Hs.
      rewrite length_fmap in Hs. lia.
  - intros i. rewrite elem_of_seq. split; [intros [_ ?]; split; [lia | left; lia]|].
    intros [? _]. lia.
  - intros i Hi. lia.
  - intros i j p Hi. lia.
  - intros j s e Hs He. apply list_lookup_fmap_Some in Hs as (c & Hc & Hs).
    by subst s.
Qed.

Lemma set_event_id_data (j : nat) (v : string) (df : list Secondary.row) :
  Secondary.data <$> set_event_id j v df = Secondary.data <$> df.
Proof.
  unfold set_event_id.
  rewrite (list_fmap_alter Secondary.data _ id)
    by (by apply Forall_forall).
  by apply list_alter_id.
Qed.

Lemma invariant_unchanged (k : nat) (p : Primary.row) (st : State.t) :
  primary !! k = Some p →
  state_after primary secondary k = Ok st →
  first_match p (available st) = Ok None →
  invariant primary secondary k st → invariant primary secondary (S k) st.
Proof.
  intros Hk Hst Hfm [].
  assert (turn primary secondary k = Ok None) as Hturn
    by (by rewrite (turn_eq _ _ _ Hst Hk)).
  split; try done.
  - intros i. rewrite inv_unmatched_primary0. split.
    + intros [Hi [Hle|Hnone]]; (split; [done|]); [|by right].
      destruct (decide (i = k)) as [->|]; [by right | left; lia].
    + intros [Hi [Hle|Hnone]]; (split; [done|]); [left; lia | by right].
  - intros i Hi. destruct (decide (i = k)) as [->|]; [eauto|].
    apply inv_turns0. lia.
  - intros i j q Hi Hq Ha. destruct (decide (i = k)) as [->|].
    + unfold assigned in Ha. congruence.
    + apply (inv_assigned0 i j q); [lia | done | done].
  - intros j s e Hs He.
    destruct (inv_event_id0 j s e Hs He) as (i & q & ? & ? & ? & ?).
    exists i, q. split; [lia | done].
Qed.

Lemma invariant_assign (k j : nat) (p : Primary.row) (st : State.t) :
  primary !! k = Some p →
  state_after primary secondary k = Ok st →
  first_match p (available st) = Ok (Some j) →
  invariant primary secondary k st →
  invariant primary secondary (S k) (assign k j p st).
Proof.
  intros Hk Hst Hfm [].
  assert (turn primary secondary k = Ok (Some j)) as Hturn
    by (by rewrite (turn_eq _ _ _ Hst Hk)).
  destruct (first_match_Some _ _ _ (ascending_available st) Hfm)
    as (s & [Hs Hj]%elem_of_available & _ & _).
  assert (Secondary.Event_ID s = None) as Hnone.
  { apply inv_unmatched_secondary0 in Hj as (s' & Hs' & ?). congruence. }
  assert (∀ j', j' ≠ j →
            State.secondary (assign k j p st) !! j' = State.secondary st !! j')
    as Hother.
  { intros j' Hne. simpl. unfold set_event_id.
    by rewrite list_lookup_alter_ne. }
  assert (State.secondary (assign k j p st) !! j =
          Some {| Secondary.data := Secondary.data s;
                  Secondary.Event_ID := Some (Primary.Event_ID p) |})
    as Hthis.
  { simpl. unfold set_event_id. by rewrite list_lookup_alter_eq, Hs. }
  split.
  - simpl. by rewrite set_event_id_data.
  - by apply NoDup_discard.
  - by apply NoDup_discard.
  - intros j'. simpl State.unmatched_secondary_indices.
    rewrite elem_of_discard by done.
    destruct (decide (j' = j)) as [->|Hne].
    + rewrite Hthis. split; [by intros [_ ?]|].
      intros (s' & [= <-] & ?). done.
    + rewrite (Hother _ Hne), inv_unmatched_secondary0. tauto.
  - intros i. simpl State.unmatched_primary_indices.
    rewrite elem_of_discard, inv_unmatched_primary0 by done. split.
    + intros [[Hi [Hle|Hn]] Hne]; (split; [done|]); [left; lia | by right].
    + intros [Hi [Hle|Hn]].
      * split; [split; [done | left; lia] | lia].
      * split; [split; [done | by right]|]. intros ->. congruence.
  - intros i Hi. destruct (decide (i = k)) as [->|]; [eauto|].
    apply inv_turns0. lia.
  - intros i j' q Hi Hq Ha. destruct (decide (i = k)) as [->|].
    + unfold assigned in Ha. rewrite Hturn in Ha. injection Ha as <-.
      rewrite Hthis. eexists. split; [done|]. simpl. congruence.
    + destruct (inv_assigned0 i j' q) as (s' & Hs' & He); [lia | done | done |].
      assert (j' ≠ j) by (intros ->; congruence).
      exists s'. by rewrite Hother.
  - intros j' s' e Hs' He. destruct (decide (j' = j)) as [->|Hne].
    + rewrite Hthis in Hs'. injection Hs' as <-. simpl in He.
      injection He as <-. exists k, p. split; [lia | done].
    + rewrite (Hother _ Hne) in Hs'.
      destruct (inv_event_id0 j' s' e Hs' He) as (i & q & ? & ? & ? & ?).
      exists i, q. split; [lia | done].
Qed.

Lemma match_row_Ok (k : nat) (p : Primary.row) (st st' : State.t) :
  match_row k p st = Ok st' →
  (first_match p (available st) = Ok None ∧ st' = st)
  ∨ ∃ j, first_match p (available st) = Ok (Some j) ∧ st' = assign k j p st.
Proof.
  unfold match_row. intros H. inv_bind H. injection H as <-.
  destruct a as [j|]; [right; eauto | left; eauto].
Qed.

Lemma invariant_after (k : nat) (st : State.t) :
  k ≤ length primary →
  state_after primary secondary k = Ok st → invariant primary secondary k st.
Proof.
  revert st. induction k as [|k IH]; intros st Hk Hst.
  - injection Hst as <-. apply invariant_initial.
  - destruct (lookup_lt_is_Some_2 primary k) as [p Hp]; [lia|].
    rewrite (state_after_S _ _ Hp) in Hst. inv_bind Hst.
    specialize (IH a ltac:(lia) Ha).
    destruct (match_row_Ok _ _ _ _ Hst) as [[Hfm ->]|(j & Hfm & ->)].
    + by eapply invariant_unchanged.
    + by eapply invariant_assign.
Qed.

(** Every earlier state of a run that returns exists. *)
Lemma state_after_le (k k' : nat) (st : State.t) :
  k ≤ k' → k' ≤ length primary →
  state_after primary secondary k' = Ok st →
  ∃ st0, state_after primary secondary k = Ok st0.
Proof.
  intros Hle. revert st. induction Hle as [|k' Hle IH]; intros st Hk' Hst; [eauto|].
  destruct (lookup_lt_is_Some_2 primary k') as [p Hp]; [lia|].
  rewrite (state_after_S _ _ Hp) in Hst. inv_bind Hst.
  apply (IH a); [lia | done].
Qed.
End Turns.

(** ** Python strings and dates *)

Lemma endswith_spec (s suffix : string) :
  endswith s suffix = true ↔ ∃ pre, s = (pre ++ suffix)%string.
Proof.
  induction s as [|c t IH]; cbn [endswith].
  - rewrite orb_false_r, String.eqb_eq. split.
    + intros <-. by exists EmptyString.
    + intros ([|? ?] & H); simpl in H; [done | discriminate].
  - rewrite orb_true_iff, String.eqb_eq, IH. split.
    + intros [<-|(pre & ->)]; [by exists EmptyString | by exists (String c pre)].
    + intros ([|c' pre] & H); simpl in H; [by left|].
      injection H as <- ->. right. by exists pre.
Qed.

Lemma date_add_days_Ok (d : date) (n : Z) :
  valid_date (d + n)%Z → date_add_days d n = Ok (d + n)%Z.
Proof.
  unfold valid_date, date_add_days. intros [Hlo Hhi].
  apply Z.leb_le in Hlo, Hhi. by rewrite Hlo, Hhi.
Qed.

Lemma date_add_days_inv (d : date) (n : Z) (d' : date) :
  date_add_days d n = Ok d' → d' = (d + n)%Z ∧ valid_date (d + n)%Z.
Proof.
  unfold valid_date, date_add_days.
  destruct (Z.leb_spec MINORDINAL (d + n)%Z), (Z.leb_spec (d + n)%Z MAXORDINAL);
    simpl; intros [= <-]. done.
Qed.

(** ** The match test *)

Lemma and_then_true (a b : result bool) :
  a &&& b = Ok true ↔ a = Ok true ∧ b = Ok true.
Proof.
  unfold and_then. destruct a as [[]|e]; simpl; split; try done;
    try (by intros [[=] _]); by intros [_ ?].
Qed.

(** Predicate conjunction: a pair is a match exactly when the four
    predicates hold together. *)
Lemma is_match_true (p : Primary.row) (s : Secondary.cols) :
  is_match p s = Ok true ↔
  join_predicate p s = Ok true ∧ window_predicate p s = Ok true
  ∧ amount_predicate p s = true ∧ vip_predicate p s = true.
Proof.
  unfold is_match, further_checks, window_predicate.
  destruct (join_predicate p s) as [[]|e]; cbn [bind].
  - rewrite !and_then_true. split.
    + intros [[Hw [= Ha]] [= Hv]]. done.
    + intros (_ & Hw & -> & ->). done.
  - split; [done | by intros [[=] _]].
  - split; [done | by intros [[=] _]].
Qed.

(** ** Runs that return *)

Section Runs.
Variable primary : list Primary.row.
Variable secondary : list Secondary.cols.

(** The final state of the loop and how the returned dictionary is read
    off it. *)
Lemma match_data_Ok (out : Output.t) :
  match_data primary secondary = Ok out →
  ∃ st rewards,
    state_after primary secondary (length primary) = Ok st
    ∧ invariant primary secondary (length primary) st
    ∧ Output.primary out = primary
    ∧ Output.secondary out =
        ((λ s, (s, notnull (Secondary.Event_ID s))) <$> State.secondary st)
    ∧ loc primary (State.unmatched_primary_indices st)
        = Ok (Output.missing_events out)
    ∧ loc (State.secondary st) (State.unmatched_secondary_indices st)
        = Ok rewards
    ∧ Output.missing_rewards out = (prod_map id Secondary.data <$> rewards).
Proof.
  unfold match_data. intros H. inv_bind H. injection H as <-.
  rewrite <- state_after_length in Ha.
  exists a, a1. split; [done|]. split; [by apply invariant_after|]. done.
Qed.

(** A turn of a run that returns has returned. *)
Lemma turn_returns (out : Output.t) (i : nat) :
  match_data primary secondary = Ok out →
  ∃ found, turn primary secondary i = Ok found.
Proof.
  intros (st & _ & Hst & Hinv & _)%match_data_Ok.
  destruct (decide (i < length primary)) as [Hi|Hi].
  - by apply (inv_turns _ _ _ _ Hinv).
  - unfold turn. rewrite (lookup_ge_None_2 primary i) by lia.
    assert (take i (iterrows primary) = take (length primary) (iterrows primary))
      as Heq.
    { rewrite !take_ge; [done | |]; unfold iterrows; rewrite length_imap; lia. }
    unfold state_after in *. rewrite Heq, Hst. simpl. eauto.
Qed.

(** What an assignment means: the pair passes the match test, the
    secondary row was still unassigned, and every earlier row that passes
    it had been taken at an earlier turn. *)
Lemma assigned_inv (out : Output.t) (i j : nat) :
  match_data primary secondary = Ok out →
  assigned primary secondary i j →
  ∃ p s, primary !! i = Some p ∧ secondary !! j = Some s
    ∧ is_match p s = Ok true
    ∧ (∀ i', i' < i → ¬ assigned primary secondary i' j)
    ∧ ∀ j' s', j' < j → secondary !! j' = Some s' →
        is_match p s' = Ok true →
        ∃ i', i' < i ∧ assigned primary secondary i' j'.
Proof.
  intros Hout Ha. pose proof Hout as (stn & _ & Hstn & _)%match_data_Ok.
  unfold assigned, turn in Ha.
  destruct (primary !! i) as [p|] eqn:Hp; [|by inv_bind Ha].
  inv_bind Ha. rename a into st.
  assert (i < length primary) as Hi by (by eapply lookup_lt_Some).
  pose proof (invariant_after _ _ _ _ (Nat.lt_le_incl _ _ Hi) Ha0) as Hinv.
  destruct (first_match_Some _ _ _ (ascending_available st) Ha)
    as (r & [Hr Hj]%elem_of_available & Hm & Hbefore).
  assert (∀ k r', State.secondary st !! k = Some r' →
            secondary !! k = Some (Secondary.data r')) as Hdata.
  { intros k r' Hk. rewrite <- (inv_data _ _ _ _ Hinv), list_lookup_fmap, Hk.
    done. }
  exists p, (Secondary.data r). split; [done|]. split; [by apply Hdata|].
  split; [done|]. split.
  - intros i' Hi' Ha'.
    assert (is_Some (primary !! i')) as [p' Hp']
      by (apply lookup_lt_is_Some_2; lia).
    destruct (inv_assigned _ _ _ _ Hinv i' j p' Hi' Hp' Ha') as (r' & Hr' & He).
    apply (inv_unmatched_secondary _ _ _ _ Hinv) in Hj as (r'' & Hr'' & Hn).
    congruence.
  - intros j' s' Hj' Hs' Hm'.
    assert (is_Some (State.secondary st !! j')) as [r' Hr'].
    { apply lookup_lt_is_Some. rewrite <- (length_fmap Secondary.data).
      rewrite (inv_data _ _ _ _ Hinv). by eapply lookup_lt_Some. }
    pose proof (Hdata _ _ Hr') as Hs''. rewrite Hs' in Hs''.
    injection Hs'' as ->.
    destruct (Secondary.Event_ID r') as [e|] eqn:He.
    + destruct (inv_event_id _ _ _ _ Hinv j' r' e Hr' He) as (i' & _ & ? & _ & ? & _).
      eauto.
    + assert ((j', r') ∈ available st) as Hav.
      { apply elem_of_available. split; [done|].
        apply (inv_unmatched_secondary _ _ _ _ Hinv). eauto. }
      specialize (Hbefore _ _ Hav Hj'). congruence.
Qed.

(** A row no secondary row passes the match test with is left unmatched. *)
Lemma unmatched_of_no_match (out : Output.t) (i : nat) (p : Primary.row) :
  match_data primary secondary = Ok out →
  primary !! i = Some p →
  (∀ s, is_match p s ≠ Ok true) →
  (i, p) ∈ Output.missing_events out ∧ ∀ j, ¬ assigned primary secondary i j.
Proof.
  intros Hout Hp Hnever.
  assert (∀ j, ¬ assigned primary secondary i j) as Hna.
  { intros j Ha.
    destruct (assigned_inv _ _ _ Hout Ha) as (p' & s & Hp' & _ & Hm & _).
    rewrite Hp in Hp'. injection Hp' as <-. by apply (Hnever s). }
  split; [|done].
  destruct (turn_returns _ i Hout) as [[j|] Hturn]; [by destruct (Hna j)|].
  destruct (match_data_Ok _ Hout) as (st & _ & _ & Hinv & _ & _ & Hloc & _).
  apply (loc_Ok _ _ _ Hloc). split; [|done].
  apply (inv_unmatched_primary _ _ _ _ Hinv). split; [|by right].
  by eapply lookup_lt_Some.
Qed.
End Runs.

(** ** The window *)

Lemma further_checks_value (p : Primary.row) (s : Secondary.cols) :
  valid_date (Primary.Reported_At p + 7)%Z →
  further_checks p s =
  Ok (bool_decide (Primary.Reported_At p < Secondary.Order_Release_Date s
                   ∧ Secondary.Order_Release_Date s ≤ Primary.Reported_At p + 7)%Z
      && amount_predicate p s && vip_predicate p s).
Proof.
  intros Hdate.
  unfold further_checks, released_within_week, released_after_report, and_then.
  rewrite (date_add_days_Ok _ _ Hdate). cbn [bind].
  case_bool_decide as Hw;
    destruct (Z.ltb_spec (Primary.Reported_At p) (Secondary.Order_Release_Date s)),
      (Z.leb_spec (Secondary.Order_Release_Date s) (Primary.Reported_At p + 7));
    cbn [bind andb]; try lia; try done.
  by destruct (amount_predicate p s).
Qed.

(** C4.  When seven days after the reported date is a calendar date, the
    test of lines 118-122 is the conjunction of the window, the amount
    predicate and the VIP predicate, and the window is: release date
    strictly after the reported date and at most seven days after it.  So a
    pair is a match exactly when the join, that window, the amount and the
    VIP predicate hold; a release on the day of the report is never a match,
    a release on the seventh day is one when the other three predicates
    hold, a release on the eighth day is never one. *)
Theorem window_of_the_match_test (p : Primary.row) (s : Secondary.cols) :
  valid_date (Primary.Reported_At p + 7)%Z →
  further_checks p s =
    Ok (bool_decide (Primary.Reported_At p < Secondary.Order_Release_Date s
                     ∧ Secondary.Order_Release_Date s ≤ Primary.Reported_At p + 7)%Z
        && amount_predicate p s && vip_predicate p s)
  ∧ (is_match p s = Ok true ↔
       join_predicate p s = Ok true
       ∧ (Primary.Reported_At p < Secondary.Order_Release_Date s
          ∧ Secondary.Order_Release_Date s ≤ Primary.Reported_At p + 7)%Z
       ∧ amount_predicate p s = true ∧ vip_predicate p s = true)
  ∧ (Secondary.Order_Release_Date s = Primary.Reported_At p →
       further_checks p s = Ok false ∧ is_match p s ≠ Ok true)
  ∧ (Secondary.Order_Release_Date s = (Primary.Reported_At p + 7)%Z →
       further_checks p s = Ok (amount_predicate p s && vip_predicate p s)
       ∧ (join_predicate p s = Ok true → amount_predicate p s = true →
          vip_predicate p s = true → is_match p s = Ok true))
  ∧ (Secondary.Order_Release_Date s = (Primary.Reported_At p + 8)%Z →
       further_checks p s = Ok false ∧ is_match p s ≠ Ok true).
Proof.
  intros Hdate. pose proof (further_checks_value p s Hdate) as Hchecks.
  assert (is_match p s = Ok true ↔
            join_predicate p s = Ok true
            ∧ (Primary.Reported_At p < Secondary.Order_Release_Date s
               ∧ Secondary.Order_Release_Date s ≤ Primary.Reported_At p + 7)%Z
            ∧ amount_predicate p s = true ∧ vip_predicate p s = true) as Hiff.
  { unfold is_match. rewrite Hchecks.
    destruct (join_predicate p s) as [[]|e]; cbn [bind].
    - split.
      + intros [= [[Hw%bool_decide_eq_true Ha]%andb_true_iff Hv]%andb_true_iff].
        done.
      + intros (_ & Hw & -> & ->). by rewrite bool_decide_eq_true_2.
    - split; [done | by intros [[=] _]].
    - split; [done | by intros [[=] _]]. }
  split; [done|]. split; [done|]. split; [|split].
  - intros Hsame. split.
    + rewrite Hchecks, bool_decide_eq_false_2 by lia. done.
    + intros (_ & ? & _)%Hiff. lia.
  - intros Hseventh. split.
    + rewrite Hchecks, bool_decide_eq_true_2 by lia. done.
    + intros Hj Ha Hv. apply Hiff. split; [done|]. split; [lia | done].
  - intros Heighth. split.
    + rewrite Hchecks, bool_decide_eq_false_2 by lia. done.
    + intros (_ & ? & _)%Hiff. lia.
Qed.

(** C4, as the claim has it, at the end of the calendar: the release date
    is two days after the reported date, both are calendar dates, and the
    pair passes the join; yet the window test does not pass, it raises
    [OverflowError], since the end of the window is past [date.max]. *)
Lemma window_end_past_date_max :
  valid_date (Primary.Reported_At (late_event (float_of_Z 50)))
  ∧ valid_date (Secondary.Order_Release_Date late_payout)
  ∧ (Primary.Reported_At (late_event (float_of_Z 50))
     < Secondary.Order_Release_Date late_payout
     ∧ Secondary.Order_Release_Date late_payout
       ≤ Primary.Reported_At (late_event (float_of_Z 50)) + 7)%Z
  ∧ join_predicate (late_event (float_of_Z 50)) late_payout = Ok true
  ∧ window_predicate (late_event (float_of_Z 50)) late_payout = Raise OverflowError
  ∧ further_checks (late_event (float_of_Z 50)) late_payout = Raise OverflowError
  ∧ is_match (late_event (float_of_Z 50)) late_payout = Raise OverflowError
  ∧ match_data [late_event (float_of_Z 50)] [late_payout] = Raise OverflowError.
Proof. vm_compute. repeat split; discriminate. Qed.

(** ** The returned dictionary *)

Section Outputs.
Variable primary : list Primary.row.
Variable secondary : list Secondary.cols.
Variable out : Output.t.
Hypothesis Hout : match_data primary secondary = Ok out.

(** A row of ['secondary'] carries the event of the turn that took it. *)
Lemma output_event_id (j : nat) (r : Secondary.row) (flag : bool) (e : string) :
  Output.secondary out !! j = Some (r, flag) →
  Secondary.Event_ID r = Some e →
  ∃ i p, primary !! i = Some p ∧ assigned primary secondary i j
         ∧ e = Primary.Event_ID p.
Proof.
  destruct (match_data_Ok _ _ _ Hout) as (st & _ & _ & Hinv & _ & -> & _).
  intros (r' & [= <- _] & Hr)%list_lookup_fmap_Some He.
  destruct (inv_event_id _ _ _ _ Hinv j r e Hr He) as (i & p & _ & ? & ? & ?).
  eauto.
Qed.

Lemma output_assigned (i j : nat) (p : Primary.row) :
  primary !! i = Some p → assigned primary secondary i j →
  ∃ r, Output.secondary out !! j = Some (r, true)
       ∧ Secondary.Event_ID r = Some (Primary.Event_ID p).
Proof.
  destruct (match_data_Ok _ _ _ Hout) as (st & _ & _ & Hinv & _ & -> & _).
  intros Hp Ha.
  destruct (inv_assigned _ _ _ _ Hinv i j p) as (r & Hr & He);
    [by eapply lookup_lt_Some | done | done |].
  exists r. rewrite list_lookup_fmap, Hr. simpl. by rewrite He.
Qed.

Lemma output_missing_events (i : nat) (p : Primary.row) :
  (i, p) ∈ Output.missing_events out ↔
  primary !! i = Some p ∧ turn primary secondary i = Ok None.
Proof.
  destruct (match_data_Ok _ _ _ Hout) as (st & _ & _ & Hinv & _ & _ & Hloc & _).
  destruct (loc_Ok _ _ _ Hloc) as [_ ->].
  rewrite (inv_unmatched_primary _ _ _ _ Hinv). split.
  - intros [[_ [Hle|Hnone]] Hp]; [|done].
    apply lookup_lt_Some in Hp. lia.
  - intros [Hp Hnone]. split; [|done].
    split; [by eapply lookup_lt_Some | by right].
Qed.

Lemma output_missing_rewards (j : nat) (c : Secondary.cols) :
  (j, c) ∈ Output.missing_rewards out ↔
  ∃ r, Output.secondary out !! j = Some (r, false)
       ∧ Secondary.data r = c ∧ Secondary.Event_ID r = None.
Proof.
  destruct (match_data_Ok _ _ _ Hout)
    as (st & rewards & _ & Hinv & _ & -> & _ & Hloc & ->).
  destruct (loc_Ok _ _ _ Hloc) as [_ Hrows].
  rewrite list_elem_of_fmap. split.
  - intros ([j' r] & [= -> ->] & [Hj Hr]%Hrows). simpl.
    apply (inv_unmatched_secondary _ _ _ _ Hinv) in Hj as (r' & Hr' & He).
    assert (r' = r) as -> by congruence.
    exists r. rewrite list_lookup_fmap, Hr. simpl. by rewrite He.
  - intros (r & (r' & [= <- _] & Hr)%list_lookup_fmap_Some & <- & He).
    exists (j, r). split; [done|]. apply Hrows. split; [|done].
    apply (inv_unmatched_secondary _ _ _ _ Hinv). eauto.
Qed.

Lemma output_secondary_data :
  (λ r, Secondary.data r.1) <$> Output.secondary out = secondary.
Proof.
  destruct (match_data_Ok _ _ _ Hout) as (st & _ & _ & Hinv & _ & -> & _).
  rewrite <- list_fmap_compose. apply (inv_data _ _ _ _ Hinv).
Qed.

Lemma output_secondary_flag (j : nat) (r : Secondary.row) (flag : bool) :
  Output.secondary out !! j = Some (r, flag) →
  flag = notnull (Secondary.Event_ID r).
Proof.
  destruct (match_data_Ok _ _ _ Hout) as (st & _ & _ & _ & _ & -> & _).
  by intros (r' & [= <- ->] & Hr)%list_lookup_fmap_Some.
Qed.
End Outputs.

Lemma filter_at_most_one {A : Type} (P : A → Prop) `{∀ x, Decision (P x)}
    (l : list A) :
  (∀ i j x y, l !! i = Some x → l !! j = Some y → P x → P y → i = j) →
  length (filter P l) ≤ 1.
Proof.
  induction l as [|x l IH]; intros Huniq; [simpl; lia|].
  rewrite filter_cons. destruct (decide (P x)) as [Hx|Hx].
  - assert (filter P l = []) as ->; [|simpl; lia].
    destruct (filter P l) as [|y rest] eqn:Hf; [done|].
    assert (y ∈ filter P l) as [Hpy Hy]%list_elem_of_filter
      by (rewrite Hf; by left).
    apply list_elem_of_lookup in Hy as [j Hj].
    specialize (Huniq 0 (S j) x y eq_refl Hj Hx Hpy). lia.
  - apply IH. intros i j y z Hi Hj Hy Hz.
    specialize (Huniq (S i) (S j) y z Hi Hj Hy Hz). lia.
Qed.

(** ** Uniqueness *)

(** C5.  When the primary rows have pairwise distinct event ids, a run
    leaves no two distinct secondary rows with the same non-null
    ['Event ID'], and no event id is the assignment of more than one
    secondary row. *)
Theorem assigned_event_ids_unique
    (primary : list Primary.row) (secondary : list Secondary.cols) (out : Output.t) :
  match_data primary secondary = Ok out →
  NoDup (Primary.Event_ID <$> primary) →
  (∀ j1 j2 r1 r2 e,
     Output.secondary out !! j1 = Some r1 →
     Output.secondary out !! j2 = Some r2 →
     Secondary.Event_ID r1.1 = Some e →
     Secondary.Event_ID r2.1 = Some e →
     j1 = j2)
  ∧ ∀ e, length (filter (λ r, Secondary.Event_ID r.1 = Some e)
                        (Output.secondary out)) ≤ 1.
Proof.
  intros Hout Hnd.
  assert (∀ j1 j2 r1 r2 e,
     Output.secondary out !! j1 = Some r1 →
     Output.secondary out !! j2 = Some r2 →
     Secondary.Event_ID r1.1 = Some e →
     Secondary.Event_ID r2.1 = Some e →
     j1 = j2) as Huniq.
  { intros j1 j2 [r1 f1] [r2 f2] e H1 H2 He1 He2. simpl in *.
    destruct (output_event_id _ _ _ Hout _ _ _ _ H1 He1) as (i1 & p1 & Hp1 & Ha1 & ->).
    destruct (output_event_id _ _ _ Hout _ _ _ _ H2 He2) as (i2 & p2 & Hp2 & Ha2 & Heq).
    assert (i1 = i2) as ->.
    { apply (NoDup_lookup _ _ _ (Primary.Event_ID p1) Hnd);
        rewrite list_lookup_fmap; [by rewrite Hp1 | by rewrite Hp2, Heq]. }
    unfold assigned in *. congruence. }
  split; [done|].
  intros e. apply filter_at_most_one. intros i j x y Hi Hj Hx Hy. eauto.
Qed.

(** ** Partition *)

(** C6.  In the dictionary a run returns, each primary row either was
    assigned to a secondary row, which then carries its event id, or is a
    row of ['missing_events'], never both; each secondary row either
    carries an event id or is a row of ['missing_rewards'], never both. *)
Theorem outputs_partition
    (primary : list Primary.row) (secondary : list Secondary.cols) (out : Output.t) :
  match_data primary secondary = Ok out →
  (∀ i p, primary !! i = Some p →
     ((∃ j r, assigned primary secondary i j
              ∧ Output.secondary out !! j = Some (r, true)
              ∧ Secondary.Event_ID r = Some (Primary.Event_ID p))
      ∧ i ∉ labels (Output.missing_events out))
     ∨ ((∀ j, ¬ assigned primary secondary i j)
        ∧ (i, p) ∈ Output.missing_events out))
  ∧ (∀ j r flag, Output.secondary out !! j = Some (r, flag) →
     (is_Some (Secondary.Event_ID r) ∧ flag = true
      ∧ j ∉ labels (Output.missing_rewards out))
     ∨ (Secondary.Event_ID r = None ∧ flag = false
        ∧ (j, Secondary.data r) ∈ Output.missing_rewards out)).
Proof.
  intros Hout. split.
  - intros i p Hp. destruct (turn_returns _ _ _ i Hout) as [[j|] Hturn].
    + left. destruct (output_assigned _ _ _ Hout i j p Hp Hturn) as (r & Hr & He).
      split; [by exists j, r|].
      intros ([i' p'] & -> & Hin)%list_elem_of_fmap. simpl in Hturn.
      apply (output_missing_events _ _ _ Hout) in Hin as [_ Hnone]. simpl in *.
      congruence.
    + right. split.
      * intros j Ha. unfold assigned in Ha. congruence.
      * by apply (output_missing_events _ _ _ Hout).
  - intros j r flag Hr.
    pose proof (output_secondary_flag _ _ _ Hout _ _ _ Hr) as ->.
    destruct (Secondary.Event_ID r) as [e|] eqn:He; simpl.
    + left. split; [eauto|]. split; [done|].
      intros ([j' c] & -> & Hin)%list_elem_of_fmap. simpl in Hr.
      apply (output_missing_rewards _ _ _ Hout) in Hin as (r' & Hr' & _ & He').
      congruence.
    + right. split; [done|]. split; [done|].
      apply (output_missing_rewards _ _ _ Hout). exists r.
      rewrite Hr. by rewrite He.
Qed.

(** ** Frame *)

(** C9.  A run returns the primary frame as it received it, and a
    secondary frame with the same rows in the same order whose partner
    columns are unchanged: nothing but ['Event ID'] (and the flag derived
    from it) differs.  The rows of ['missing_events'] and
    ['missing_rewards'] are rows of the two frames, under their labels. *)
Theorem matching_changes_only_event_id
    (primary : list Primary.row) (secondary : list Secondary.cols) (out : Output.t) :
  match_data primary secondary = Ok out →
  Output.primary out = primary
  ∧ (λ r, Secondary.data r.1) <$> Output.secondary out = secondary
  ∧ length (Output.secondary out) = length secondary
  ∧ (∀ j r flag, Output.secondary out !! j = Some (r, flag) →
       secondary !! j = Some (Secondary.data r)
       ∧ flag = notnull (Secondary.Event_ID r))
  ∧ (∀ i p, (i, p) ∈ Output.missing_events out → primary !! i = Some p)
  ∧ (∀ j c, (j, c) ∈ Output.missing_rewards out → secondary !! j = Some c).
Proof.
  intros Hout.
  pose proof (output_secondary_data _ _ _ Hout) as Hdata.
  assert (∀ j r flag, Output.secondary out !! j = Some (r, flag) →
            secondary !! j = Some (Secondary.data r)) as Hrow.
  { intros j r flag Hr. rewrite <- Hdata, list_lookup_fmap, Hr. done. }
  split; [by destruct (match_data_Ok _ _ _ Hout) as (? & ? & _ & _ & ? & _)|].
  split; [done|].
  split; [by rewrite <- Hdata, length_fmap|].
  split; [|split].
  - intros j r flag Hr. split; [by eapply Hrow|].
    by eapply output_secondary_flag.
  - by intros i p [? _]%(output_missing_events _ _ _ Hout).
  - intros j c (r & Hr & <- & _)%(output_missing_rewards _ _ _ Hout).
    by eapply Hrow.
Qed.

(** ** First fit *)

(** A turn that finds nothing: every secondary row that passes the match
    test had been taken at an earlier turn. *)
Lemma turn_None_inv
    (primary : list Primary.row) (secondary : list Secondary.cols) (out : Output.t)
    (i : nat) (p : Primary.row) :
  match_data primary secondary = Ok out →
  primary !! i = Some p →
  turn primary secondary i = Ok None →
  ∀ j s, secondary !! j = Some s → is_match p s = Ok true →
         ∃ i', i' < i ∧ assigned primary secondary i' j.
Proof.
  intros Hout Hp Hturn j s Hs Hm. unfold turn in Hturn. rewrite Hp in Hturn.
  inv_bind Hturn. rename a into st.
  assert (i < length primary) as Hi by (by eapply lookup_lt_Some).
  pose proof (invariant_after _ _ _ _ (Nat.lt_le_incl _ _ Hi) Ha) as Hinv.
  assert (is_Some (State.secondary st !! j)) as [r Hr].
  { apply lookup_lt_is_Some. rewrite <- (length_fmap Secondary.data).
    rewrite (inv_data _ _ _ _ Hinv). by eapply lookup_lt_Some. }
  assert (Secondary.data r = s) as <-.
  { pose proof (inv_data _ _ _ _ Hinv) as Hd.
    rewrite <- Hd, list_lookup_fmap, Hr in Hs. by injection Hs. }
  destruct (Secondary.Event_ID r) as [e|] eqn:He.
  - destruct (inv_event_id _ _ _ _ Hinv j r e Hr He) as (i' & _ & ? & _ & ? & _).
    eauto.
  - assert ((j, r) ∈ available st) as Hav.
    { apply elem_of_available. split; [done|].
      apply (inv_unmatched_secondary _ _ _ _ Hinv). eauto. }
    pose proof (first_match_None _ _ Hturn _ _ Hav). congruence.
Qed.

(** C7.  Order decides.  In a run that returns, let two primary rows pass
    the match test with the same secondary row [j], which is the only
    secondary row either of them passes it with, and let no primary row
    before the earlier of the two pass it with [j]: then the earlier one is
    assigned [j] and the later one is a row of ['missing_events'].  And
    first fit on the secondary side: the row a primary row is assigned is
    the earliest one, in input order, among those that pass the match test
    with it and have not been taken at an earlier turn; and a primary row
    that has such a row is assigned one. *)
Theorem earliest_row_wins
    (primary : list Primary.row) (secondary : list Secondary.cols) (out : Output.t) :
  match_data primary secondary = Ok out →
  (∀ a b j pa pb s,
     a < b →
     primary !! a = Some pa → primary !! b = Some pb → secondary !! j = Some s →
     is_match pa s = Ok true → is_match pb s = Ok true →
     (∀ j' s', secondary !! j' = Some s' → j' ≠ j →
               is_match pa s' ≠ Ok true ∧ is_match pb s' ≠ Ok true) →
     (∀ i p, i < a → primary !! i = Some p → is_match p s ≠ Ok true) →
     assigned primary secondary a j
     ∧ (∃ r, Output.secondary out !! j = Some (r, true)
             ∧ Secondary.Event_ID r = Some (Primary.Event_ID pa))
     ∧ (a ∉ labels (Output.missing_events out))
     ∧ (∀ j', ¬ assigned primary secondary b j')
     ∧ (b, pb) ∈ Output.missing_events out)
  ∧ (∀ i j,
       assigned primary secondary i j →
       ∃ p s, primary !! i = Some p ∧ secondary !! j = Some s
         ∧ is_match p s = Ok true
         ∧ ∀ j' s', j' < j → secondary !! j' = Some s' →
             is_match p s' = Ok true →
             ∃ i', i' < i ∧ assigned primary secondary i' j')
  ∧ (∀ i p j s,
       primary !! i = Some p → secondary !! j = Some s →
       is_match p s = Ok true →
       (∀ i', i' < i → ¬ assigned primary secondary i' j) →
       ∃ j0 s0, j0 ≤ j ∧ assigned primary secondary i j0
         ∧ secondary !! j0 = Some s0 ∧ is_match p s0 = Ok true
         ∧ (∃ r, Output.secondary out !! j0 = Some (r, true)
                 ∧ Secondary.Event_ID r = Some (Primary.Event_ID p))
         ∧ ∀ j' s', j' < j0 → secondary !! j' = Some s' →
             is_match p s' = Ok true →
             ∃ i', i' < i ∧ assigned primary secondary i' j').
Proof.
  intros Hout. split; [|split].
  - intros a b j pa pb s Hab Hpa Hpb Hs Hma Hmb Hsingle Hfirst.
    assert (assigned primary secondary a j) as Ha.
    { destruct (turn_returns _ _ _ a Hout) as [[j'|] Hturn].
      - destruct (assigned_inv _ _ _ _ _ Hout Hturn)
          as (p & s' & Hp & Hs' & Hm & _).
        assert (p = pa) as -> by congruence.
        destruct (decide (j' = j)) as [->|Hne]; [done|].
        by destruct (Hsingle j' s' Hs' Hne) as [[] _].
      - destruct (turn_None_inv _ _ _ _ _ Hout Hpa Hturn j s Hs Hma)
          as (i' & Hi' & Ha').
        destruct (assigned_inv _ _ _ _ _ Hout Ha')
          as (p & s' & Hp & Hs' & Hm & _).
        assert (s' = s) as -> by congruence.
        by destruct (Hfirst i' p Hi' Hp). }
    assert (∀ j', ¬ assigned primary secondary b j') as Hb.
    { intros j' Hb.
      destruct (assigned_inv _ _ _ _ _ Hout Hb)
        as (p & s' & Hp & Hs' & Hm & Hfree & _).
      assert (p = pb) as -> by congruence.
      destruct (decide (j' = j)) as [->|Hne]; [by apply (Hfree a)|].
      by destruct (Hsingle j' s' Hs' Hne) as [_ []]. }
    split; [done|]. split; [by eapply output_assigned|]. split; [|split; [done|]].
    + intros ([a' p'] & -> & Hin)%list_elem_of_fmap. simpl in Ha.
      apply (output_missing_events _ _ _ Hout) in Hin as [_ Hnone].
      unfold assigned in Ha. simpl in Hnone. congruence.
    + apply (output_missing_events _ _ _ Hout). split; [done|].
      destruct (turn_returns _ _ _ b Hout) as [[j'|] Hturn]; [|done].
      by destruct (Hb j').
  - intros i j Ha.
    destruct (assigned_inv _ _ _ _ _ Hout Ha) as (p & s & ? & ? & ? & _ & ?).
    by exists p, s.
  - intros i p j s Hp Hs Hm Hfree.
    destruct (turn_returns _ _ _ i Hout) as [[j0|] Hturn].
    + destruct (assigned_inv _ _ _ _ _ Hout Hturn)
        as (p' & s0 & Hp' & Hs0 & Hm0 & _ & Hearliest).
      assert (p' = p) as -> by congruence.
      exists j0, s0. split.
      { destruct (decide (j0 ≤ j)) as [|Hlt]; [done|].
        destruct (Hearliest j s ltac:(lia) Hs Hm) as (i' & Hi' & Ha').
        by destruct (Hfree i' Hi'). }
      split; [done|]. split; [done|]. split; [done|].
      split; [by eapply output_assigned | done].
    + destruct (turn_None_inv _ _ _ _ _ Hout Hp Hturn j s Hs Hm)
        as (i' & Hi' & Ha').
      by destruct (Hfree i' Hi').
Qed.

(** C7, as the claim has it, with a third competitor: rows 1 and 2 of the
    primary frame both pass the match test with the single secondary row,
    yet the earlier of the two is not assigned; row 0, which passes it too,
    takes the row, and rows 1 and 2 are both reported unmatched. *)
Lemma third_competitor_takes_the_row :
  is_match (vip_event "E1") (vip_payout 50 3) = Ok true
  ∧ is_match (vip_event "E2") (vip_payout 50 3) = Ok true
  ∧ match_data [vip_event "E0"; vip_event "E1"; vip_event "E2"] [vip_payout 50 3]
    = Ok {| Output.primary := [vip_event "E0"; vip_event "E1"; vip_event "E2"];
            Output.secondary :=
              [({| Secondary.data := vip_payout 50 3;
                   Secondary.Event_ID := Some "E0"%string |}, true)];
            Output.missing_events := [(1, vip_event "E1"); (2, vip_event "E2")];
            Output.missing_rewards := [] |}
  ∧ ¬ assigned [vip_event "E0"; vip_event "E1"; vip_event "E2"] [vip_payout 50 3] 1 0.
Proof. vm_compute. repeat split; discriminate. Qed.

(** ** Rows that never match *)




Lemma cashvip_label_values (x : string) :
  cashvip_label x = "YES"%string ∨ cashvip_label x = "NO"%string.
Proof. unfold cashvip_label. destruct (contains _ _); eauto. Qed.

(** C10.  On a primary frame whose [CASHVIP] cells hold the values
    [prepare_data] writes, ['YES'] or ['NO'], a row whose cell is ['NO']
    fails the VIP predicate against every secondary row, so in a run that
    returns it is assigned to nothing and is a row of ['missing_events']:
    the second disjunct of the VIP test asks for the empty string. *)
Theorem cashvip_NO_is_unmatched
    (primary : list Primary.row) (secondary : list Secondary.cols) (out : Output.t)
    (i : nat) (p : Primary.row) :
  Forall (λ q, Primary.CASHVIP q = "YES"%string ∨ Primary.CASHVIP q = "NO"%string)
         primary →
  match_data primary secondary = Ok out →
  primary !! i = Some p →
  Primary.CASHVIP p = "NO"%string →
  (∀ s, vip_predicate p s = false)
  ∧ (∀ s, is_match p s ≠ Ok true)
  ∧ (∀ j, ¬ assigned primary secondary i j)
  ∧ (i, p) ∈ Output.missing_events out.
Proof.
  intros _ Hout Hp Hno.
  assert (∀ s, vip_predicate p s = false) as Hvip.
  { intros s. unfold vip_predicate. by rewrite Hno. }
  assert (∀ s, is_match p s ≠ Ok true) as Hnever.
  { intros s (_ & _ & _ & Hv)%is_match_true. rewrite Hvip in Hv. done. }
  destruct (unmatched_of_no_match _ _ _ _ _ Hout Hp Hnever). done.
Qed.

(** ** The join, on the columns [match_data] reads *)

Lemma join_predicate_true (p : Primary.row) (s : Secondary.cols) :
  join_predicate p s = Ok true ↔
  ∃ suffix, Primary.last_10_digits p = Some suffix
    ∧ (∃ pre, Secondary.Recipient_Phone_Number s = (pre ++ suffix)%string)
    ∧ lower (Primary.name p) = lower (Secondary.Recipient s).
Proof.
  unfold join_predicate.
  destruct (Primary.last_10_digits p) as [suffix|]; simpl.
  - split.
    + intros [= [Hphone Hname]%andb_true_iff]. exists suffix.
      by rewrite <- endswith_spec, <- String.eqb_eq.
    + intros (? & [= <-] & Hphone%endswith_spec & Hname%String.eqb_eq).
      by rewrite Hphone, Hname.
  - split; [done | by intros (? & [=] & _)].
Qed.

(** [match_data] never reads the column [prepare_data] normalises. *)
Lemma join_predicate_ignores_Telephone_Number
    (p : Primary.row) (number : string) (s : Secondary.cols) :
  join_predicate
    {| Primary.Event_ID := Primary.Event_ID p;
       Primary.name := Primary.name p;
       Primary.amount := Primary.amount p;
       Primary.Telephone_Number := number;
       Primary.Reported_At := Primary.Reported_At p;
       Primary.CASHVIP := Primary.CASHVIP p;
       Primary.last_10_digits := Primary.last_10_digits p |} s
  = join_predicate p s.
Proof. done. Qed.

(** A reward label without a match for the pattern has no amount. *)
Lemma extract_amount_no_match (reward_name : string) :
  search_pound reward_name = None → extract_amount reward_name = nan.
Proof. unfold extract_amount. by intros ->. Qed.

(** ** Concrete runs *)

(** C1.  The example scenario, with the non-VIP flag as [prepare_data]
    writes it (['NO']): the run returns, the secondary row keeps a null
    ['Event ID'], and both rows are reported unmatched. *)
Theorem example_scenario_stays_unmatched :
  match_data [example_primary] [example_secondary] =
  Ok {| Output.primary := [example_primary];
        Output.secondary :=
          [({| Secondary.data := example_secondary;
               Secondary.Event_ID := None |}, false)];
        Output.missing_events := [(0, example_primary)];
        Output.missing_rewards := [(0, example_secondary)] |}.
Proof. vm_compute. reflexivity. Qed.

(** The same scenario matches once the flag is the empty string, the only
    non-VIP value line 122 accepts. *)
Example example_scenario_with_empty_flag :
  let p := {| Primary.Event_ID := Primary.Event_ID example_primary;
              Primary.name := Primary.name example_primary;
              Primary.amount := Primary.amount example_primary;
              Primary.Telephone_Number := Primary.Telephone_Number example_primary;
              Primary.Reported_At := Primary.Reported_At example_primary;
              Primary.CASHVIP := EmptyString;
              Primary.last_10_digits := Primary.last_10_digits example_primary |} in
  match_data [p] [example_secondary] =
  Ok {| Output.primary := [p];
        Output.secondary :=
          [({| Secondary.data := example_secondary;
               Secondary.Event_ID := Some "E1"%string |}, true)];
        Output.missing_events := [];
        Output.missing_rewards := [] |}.
Proof. vm_compute. reflexivity. Qed.

(** C2.  The VIP predicate on a primary row whose flag is the ['NO'] that
    [prepare_data] writes for a non-VIP reward: it fails against every
    secondary row, among them those whose ['CASHVIP?'] cell is missing. *)
Theorem vip_predicate_rejects_NO :
  Primary.CASHVIP example_primary = cashvip_label "Â£50 Amazon voucher"%string
  ∧ Secondary.CASHVIP_q example_secondary = None
  ∧ ∀ s, vip_predicate example_primary s = false.
Proof. split; [done|]. split; [done|]. intros s. done. Qed.

(** C3.  A loaded row without a [last_10_digits] column: [prepare_data]
    stores the last ten characters of the telephone number under
    ['Telephone Number'], the partner's phone number ends with them and the
    lowercased names agree, yet the join of [match_data] raises [KeyError]
    on the column it reads, and so does the whole run. *)
Theorem join_reads_a_column_prepare_data_does_not_write :
  let p := prepare_row loaded_event in
  let s := vip_payout 50 3 in
  Primary.Telephone_Number p = "5551234567"%string
  ∧ endswith (Secondary.Recipient_Phone_Number s) (Primary.Telephone_Number p) = true
  ∧ lower (Primary.name p) = lower (Secondary.Recipient s)
  ∧ Primary.last_10_digits p = None
  ∧ join_predicate p s = Raise (KeyError "last_10_digits")
  ∧ main [loaded_event] [s] = Raise (KeyError "last_10_digits").
Proof. vm_compute. repeat split; reflexivity. Qed.

(** ** The theorems at concrete frames *)

Lemma window_of_the_match_test_witness :
  valid_date (Primary.Reported_At (vip_event "E1") + 7)%Z
  ∧ is_match (vip_event "E1") (vip_payout 50 1) ≠ Ok true
  ∧ further_checks (vip_event "E1") (vip_payout 50 1) = Ok false
  ∧ is_match (vip_event "E1") (vip_payout 50 3) = Ok true
  ∧ is_match (vip_event "E1") (vip_payout 50 8) = Ok true
  ∧ is_match (vip_event "E1") (vip_payout 50 9) ≠ Ok true
  ∧ further_checks (vip_event "E1") (vip_payout 50 9) = Ok false.
Proof.
  assert (valid_date (Primary.Reported_At (vip_event "E1") + 7)%Z) as Hdate
    by (by vm_compute).
  split; [exact Hdate|].
  destruct (window_of_the_match_test (vip_event "E1") (vip_payout 50 1) Hdate)
    as (_ & _ & Hsame & _ & _).
  destruct (Hsame eq_refl) as [Hsame1 Hsame2].
  destruct (window_of_the_match_test (vip_event "E1") (vip_payout 50 3) Hdate)
    as (_ & Hinside & _ & _ & _).
  destruct (window_of_the_match_test (vip_event "E1") (vip_payout 50 8) Hdate)
    as (_ & _ & _ & Hseventh & _).
  destruct (Hseventh eq_refl) as [_ Hseventh2].
  destruct (window_of_the_match_test (vip_event "E1") (vip_payout 50 9) Hdate)
    as (_ & _ & _ & _ & Heighth).
  destruct (Heighth eq_refl) as [Heighth1 Heighth2].
  split; [exact Hsame2|]. split; [exact Hsame1|]. split; [|split; [|split]].
  - apply Hinside. split; [reflexivity|]. split; [by vm_compute|].
    split; reflexivity.
  - apply Hseventh2; reflexivity.
  - exact Heighth2.
  - exact Heighth1.
Defined.

Lemma assigned_event_ids_unique_witness :
  ∃ out,
    match_data [vip_event "E1"; vip_event "E2"; vip_event "E3"]
               [vip_payout 50 3; vip_payout 60 3; vip_payout 50 4] = Ok out
    ∧ NoDup (Primary.Event_ID <$> [vip_event "E1"; vip_event "E2"; vip_event "E3"])
    ∧ ∀ e, length (filter (λ r, Secondary.Event_ID r.1 = Some e)
                          (Output.secondary out)) ≤ 1.
Proof.
  assert (NoDup (Primary.Event_ID <$> [vip_event "E1"; vip_event "E2"; vip_event "E3"]))
    as Hnd by (by apply (bool_decide_unpack _)).
  eexists. split; [reflexivity|]. split; [exact Hnd|].
  destruct (assigned_event_ids_unique
              [vip_event "E1"; vip_event "E2"; vip_event "E3"]
              [vip_payout 50 3; vip_payout 60 3; vip_payout 50 4] _ eq_refl Hnd)
    as [_ Hcount].
  exact Hcount.
Defined.

Lemma outputs_partition_witness :
  ∃ out,
    match_data [vip_event "E1"; example_primary]
               [vip_payout 60 3; vip_payout 50 3] = Ok out
    ∧ ((∃ j r, assigned [vip_event "E1"; example_primary]
                        [vip_payout 60 3; vip_payout 50 3] 0 j
               ∧ Output.secondary out !! j = Some (r, true)
               ∧ Secondary.Event_ID r = Some "E1"%string)
       ∧ 0 ∉ labels (Output.missing_events out)
       ∨ (∀ j, ¬ assigned [vip_event "E1"; example_primary]
                          [vip_payout 60 3; vip_payout 50 3] 0 j)
         ∧ (0, vip_event "E1") ∈ Output.missing_events out).
Proof.
  eexists. split; [reflexivity|].
  destruct (outputs_partition [vip_event "E1"; example_primary]
              [vip_payout 60 3; vip_payout 50 3] _ eq_refl) as [Hprimary _].
  exact (Hprimary 0 (vip_event "E1") eq_refl).
Defined.

Lemma earliest_row_wins_witness :
  (∃ out,
     match_data [vip_event "E1"; vip_event "E2"] [vip_payout 50 3] = Ok out
     ∧ assigned [vip_event "E1"; vip_event "E2"] [vip_payout 50 3] 0 0
     ∧ (1, vip_event "E2") ∈ Output.missing_events out)
  ∧ (∃ out,
       match_data [vip_event "E1"]
                  [vip_payout 60 3; vip_payout 50 3; vip_payout 50 3] = Ok out
       ∧ is_match (vip_event "E1") (vip_payout 50 3) = Ok true
       ∧ ∃ j0 s0, j0 ≤ 2
           ∧ assigned [vip_event "E1"]
                      [vip_payout 60 3; vip_payout 50 3; vip_payout 50 3] 0 j0
           ∧ [vip_payout 60 3; vip_payout 50 3; vip_payout 50 3] !! j0 = Some s0
           ∧ is_match (vip_event "E1") s0 = Ok true).
Proof.
  split.
  - eexists. split; [reflexivity|].
    destruct (earliest_row_wins [vip_event "E1"; vip_event "E2"] [vip_payout 50 3]
                _ eq_refl) as (Hearlier & _ & _).
    destruct (Hearlier 0 1 0 (vip_event "E1") (vip_event "E2") (vip_payout 50 3))
      as (Ha & _ & _ & _ & Hb).
    + lia.
    + reflexivity.
    + reflexivity.
    + reflexivity.
    + reflexivity.
    + reflexivity.
    + intros [|j'] s' Hs' Hne; [done | discriminate].
    + intros i p Hi. lia.
    + split; [exact Ha | exact Hb].
  - eexists. split; [reflexivity|]. split; [reflexivity|].
    destruct (earliest_row_wins [vip_event "E1"]
                [vip_payout 60 3; vip_payout 50 3; vip_payout 50 3]
                _ eq_refl) as (_ & _ & Hfit).
    destruct (Hfit 0 (vip_event "E1") 2 (vip_payout 50 3) eq_refl eq_refl eq_refl)
      as (j0 & s0 & Hle & Ha & Hs0 & Hm0 & _).
    + intros i' Hi'. lia.
    + exists j0, s0. split; [exact Hle|]. split; [exact Ha|].
      split; [exact Hs0 | exact Hm0].
Defined.


Lemma matching_changes_only_event_id_witness :
  ∃ out,
    match_data [vip_event "E1"; example_primary]
               [vip_payout 60 3; vip_payout 50 3] = Ok out
    ∧ Output.primary out = [vip_event "E1"; example_primary]
    ∧ (λ r, Secondary.data r.1) <$> Output.secondary out
      = [vip_payout 60 3; vip_payout 50 3].
Proof.
  eexists. split; [reflexivity|].
  destruct (matching_changes_only_event_id [vip_event "E1"; example_primary]
              [vip_payout 60 3; vip_payout 50 3] _ eq_refl) as (Hp & Hs & _).
  split; [exact Hp | exact Hs].
Defined.

Lemma cashvip_NO_is_unmatched_witness :
  ∃ out,
    match_data [vip_event "E1"; example_primary]
               [vip_payout 50 3; example_secondary] = Ok out
    ∧ Forall (λ q, Primary.CASHVIP q = "YES"%string ∨ Primary.CASHVIP q = "NO"%string)
             [vip_event "E1"; example_primary]
    ∧ Primary.CASHVIP example_primary = "NO"%string
    ∧ (1, example_primary) ∈ Output.missing_events out.
Proof.
  assert (Forall (λ q, Primary.CASHVIP q = "YES"%string
                       ∨ Primary.CASHVIP q = "NO"%string)
            [vip_event "E1"; example_primary]) as Hall.
  { constructor; [by left|]. constructor; [by right|]. constructor. }
  eexists. split; [reflexivity|]. split; [exact Hall|].
  split; [reflexivity|].
  apply (cashvip_NO_is_unmatched [vip_event "E1"; example_primary]
           [vip_payout 50 3; example_secondary] _ 1 example_primary Hall
           eq_refl eq_refl eq_refl).
Defined.


(** * Further properties *)

(** ** Slices, suffixes and substrings *)

Lemma length_append (s1 s2 : string) :
  String.length (s1 ++ s2)%string = String.length s1 + String.length s2.
Proof. induction s1 as [|c s1 IH]; simpl; [done | by rewrite IH]. Qed.

Lemma endswith_length (s suffix : string) :
  endswith s suffix = true → String.length suffix ≤ String.length s.
Proof.
  intros (pre & ->)%endswith_spec. rewrite length_append. lia.
Qed.

Lemma substring_all (n : nat) (s : string) :
  String.length s ≤ n → substring 0 n s = s.
Proof.
  revert n. induction s as [|c s IH]; intros [|n] Hn; simpl in *; try done.
  - lia.
  - rewrite IH; [done | lia].
Qed.

Lemma last_chars_nil (n : nat) : last_chars n EmptyString = EmptyString.
Proof. by destruct n. Qed.

Lemma last_chars_cons (n : nat) (c : ascii) (t : string) :
  last_chars n (String c t) =
  if decide (n ≤ String.length t) then last_chars n t else String c t.
Proof.
  unfold last_chars. cbn [String.length].
  destruct (decide (n ≤ String.length t)) as [Hn|Hn].
  - replace (S (String.length t) - n) with (S (String.length t - n)) by lia.
    done.
  - replace (S (String.length t) - n) with 0 by lia.
    apply (substring_all n (String c t)). simpl. lia.
Qed.

(** A slice [s[-n:]] equals a string of [n] characters exactly when [s]
    ends with it. *)
Lemma last_chars_endswith (n : nat) (s suffix : string) :
  String.length suffix = n →
  last_chars n s = suffix ↔ endswith s suffix = true.
Proof.
  intros Hlen. induction s as [|c t IH].
  - rewrite last_chars_nil. cbn [endswith].
    by rewrite orb_false_r, String.eqb_eq.
  - rewrite last_chars_cons. cbn [endswith].
    rewrite orb_true_iff, String.eqb_eq.
    destruct (decide (n ≤ String.length t)) as [Hn|Hn].
    + rewrite IH. split; [by right|]. intros [Heq|?]; [|done].
      rewrite <- Heq in Hlen. simpl in Hlen. lia.
    + split; [by left|]. intros [?|Hends%endswith_length]; [done | lia].
Qed.

Lemma prefix_spec (s1 s2 : string) :
  String.prefix s1 s2 = true ↔ ∃ post, s2 = (s1 ++ post)%string.
Proof.
  revert s2. induction s1 as [|a s1 IH]; intros s2.
  - destruct s2; simpl; split; eauto.
  - destruct s2 as [|b s2]; simpl.
    + split; [done | by intros (? & [=])].
    + destruct (ascii_dec a b) as [->|Hne].
      * rewrite IH. split; intros (post & H); exists post.
        -- simpl. by rewrite H.
        -- simpl in H. by injection H.
      * split; [done|]. intros (post & H). simpl in H. by injection H.
Qed.

Lemma contains_spec (sub s : string) :
  contains sub s = true ↔ ∃ pre post, s = (pre ++ sub ++ post)%string.
Proof.
  induction s as [|c t IH]; cbn [contains].
  - rewrite orb_false_r, prefix_spec. split.
    + intros (post & ->). by exists EmptyString, post.
    + intros ([|? ?] & post & H); [by exists post | discriminate].
  - rewrite orb_true_iff, prefix_spec, IH. split.
    + intros [(post & ->)|(pre & post & ->)];
        [by exists EmptyString, post | by exists (String c pre), post].
    + intros ([|c' pre] & post & H); simpl in H.
      * left. by exists post.
      * injection H as <- ->. right. by exists pre, post.
Qed.

(** ** [load_file] *)

(** X1.  [load_file] reads a path with [read_csv] exactly when the path
    ends with [csv], else with [read_excel] exactly when it ends with
    [xlsx], and for any other path it returns [None] without reading
    anything; slicing never raises, whatever the length of the path. *)
Theorem load_file_by_suffix {frame : Type}
    (read_csv read_excel : string → result frame) (filename : string) :
  load_file read_csv read_excel filename =
  if endswith filename "csv" then
    let* df := read_csv filename in Ok (Some df)
  else if endswith filename "xlsx" then
    let* df := read_excel filename in Ok (Some df)
  else Ok None.
Proof.
  unfold load_file.
  assert (∀ n suffix, String.length suffix = n →
            String.eqb (last_chars n filename) suffix = endswith filename suffix)
    as Hslice.
  { intros n suffix Hn. apply eq_true_iff_eq.
    rewrite String.eqb_eq. by apply last_chars_endswith. }
  by rewrite !Hslice.
Qed.

(** ** [prepare_data] *)

(** X2.  The [CASHVIP] cell [prepare_data] writes is ['YES'] exactly when
    the reward name contains the text [CASHVIP], in this spelling, and
    ['NO'] exactly when it does not; it is never the empty string. *)
Theorem prepared_CASHVIP (r : Raw.row) :
  (Primary.CASHVIP (prepare_row r) = "YES"%string ↔
     ∃ pre post, Raw.Reward_Name r = (pre ++ "CASHVIP" ++ post)%string)
  ∧ (Primary.CASHVIP (prepare_row r) = "NO"%string ↔
     ¬ ∃ pre post, Raw.Reward_Name r = (pre ++ "CASHVIP" ++ post)%string)
  ∧ Primary.CASHVIP (prepare_row r) ≠ EmptyString.
Proof.
  simpl. unfold cashvip_label. rewrite <- contains_spec.
  destruct (contains "CASHVIP" (Raw.Reward_Name r)).
  - split; [done|]. split; [|done]. split; [done | by intros []].
  - split; [split; done|]. split; [|done]. split; [by intros _ | done].
Qed.

Lemma last_chars_suffix (n : nat) (s : string) :
  endswith s (last_chars n s) = true.
Proof.
  induction s as [|c t IH].
  - by rewrite last_chars_nil.
  - rewrite last_chars_cons. cbn [endswith].
    destruct (decide (n ≤ String.length t)).
    + rewrite IH. apply orb_true_r.
    + by rewrite String.eqb_refl.
Qed.

Lemma last_chars_length (n : nat) (s : string) :
  String.length (last_chars n s) = n `min` String.length s.
Proof.
  induction s as [|c t IH].
  - rewrite last_chars_nil. simpl. lia.
  - rewrite last_chars_cons. destruct (decide (n ≤ String.length t)).
    + rewrite IH. simpl. lia.
    + simpl. lia.
Qed.

Lemma ascii_text_app (s1 s2 : string) :
  ascii_text (s1 ++ s2) = ascii_text s1 && ascii_text s2.
Proof.
  induction s1 as [|c t IH]; [done|]. simpl. by rewrite IH, andb_assoc.
Qed.

(** X3.  On an ASCII telephone number, the ['Telephone Number'] cell
    [prepare_data] writes is the end of the loaded number: the whole number
    when it has at most ten characters, its last ten otherwise; it is ASCII
    text, and preparing a prepared number changes nothing. *)
Theorem prepared_Telephone_Number (r : Raw.row) :
  ascii_text (Raw.Telephone_Number r) = true →
  (∃ pre, Raw.Telephone_Number r
          = (pre ++ Primary.Telephone_Number (prepare_row r))%string)
  ∧ String.length (Primary.Telephone_Number (prepare_row r))
    = 10 `min` String.length (Raw.Telephone_Number r)
  ∧ (String.length (Raw.Telephone_Number r) ≤ 10 →
     Primary.Telephone_Number (prepare_row r) = Raw.Telephone_Number r)
  ∧ ascii_text (Primary.Telephone_Number (prepare_row r)) = true
  ∧ last_chars 10 (Primary.Telephone_Number (prepare_row r))
    = Primary.Telephone_Number (prepare_row r).
Proof.
  intros Hascii. simpl.
  assert (∃ pre, Raw.Telephone_Number r
                 = (pre ++ last_chars 10 (Raw.Telephone_Number r))%string)
    as Hsuffix by apply endswith_spec, last_chars_suffix.
  split; [done|].
  split; [apply last_chars_length|]. split; [|split].
  - intros Hlen. unfold last_chars.
    replace (String.length (Raw.Telephone_Number r) - 10) with 0 by lia.
    by apply substring_all.
  - destruct Hsuffix as [pre Hpre]. rewrite Hpre, ascii_text_app in Hascii.
    by apply andb_true_iff in Hascii as [_ ?].
  - unfold last_chars at 1. rewrite last_chars_length.
    replace (10 `min` String.length (Raw.Telephone_Number r) - 10) with 0 by lia.
    apply substring_all. rewrite last_chars_length. lia.
Qed.

Lemma prepared_Telephone_Number_witness :
  ascii_text (Raw.Telephone_Number loaded_event) = true
  ∧ String.length (Primary.Telephone_Number (prepare_row loaded_event)) = 10
  ∧ ascii_text (Primary.Telephone_Number (prepare_row loaded_event)) = true.
Proof.
  destruct (prepared_Telephone_Number loaded_event eq_refl)
    as (_ & Hlen & _ & Hascii & _).
  split; [reflexivity|]. split; [exact Hlen | exact Hascii].
Defined.

(** ** The amount of a reward label *)

Lemma strip_prefix_spec (pre s t : string) :
  strip_prefix pre s = Some t ↔ s = (pre ++ t)%string.
Proof.
  revert s. induction pre as [|a pre IH]; intros s; simpl.
  - split; [by intros [= ->] | by intros ->].
  - destruct s as [|b s]; [split; [done | by intros [=]]|].
    destruct (Ascii.eqb_spec a b) as [->|Hne].
    + rewrite IH. split; [by intros -> | by intros [= ->]].
    + split; [done | by intros [= ? _]].
Qed.

Lemma digits_prefix_nonempty (c : ascii) (rest : string) :
  is_digit c = true →
  ∃ d, digits_prefix (String c rest) = String c d.
Proof. intros Hc. simpl. rewrite Hc. eauto. Qed.

Lemma match_pound_here_None (s : string) :
  match_pound_here s = None ↔
  ∀ c rest, s = ("Â£" ++ String c rest)%string → is_digit c = false.
Proof.
  unfold match_pound_here.
  destruct (strip_prefix "Â£" s) as [t|] eqn:Ht.
  - apply strip_prefix_spec in Ht as ->. destruct t as [|c rest].
    + split; [|done]. intros _ c rest H. simpl in H. discriminate.
    + cbn [digits_prefix]. destruct (is_digit c) eqn:Hc.
      * split; [done|]. intros H. by rewrite (H c rest eq_refl) in Hc.
      * split; [|done]. intros _ c' rest' H. simpl in H.
        injection H as <- _. done.
  - split; [|done]. intros _ c rest ->.
    by rewrite (proj2 (strip_prefix_spec "Â£" _ (String c rest)) eq_refl) in Ht.
Qed.

Lemma search_pound_None (s : string) :
  search_pound s = None ↔
  ∀ pre c rest, s = (pre ++ "Â£" ++ String c rest)%string → is_digit c = false.
Proof.
  induction s as [|a t IH]; cbn [search_pound].
  - split; [|done]. intros _ [|? ?] c rest H; simpl in H; discriminate.
  - destruct (match_pound_here (String a t)) as [d|] eqn:Hhere.
    + split; [done|]. intros H.
      assert (match_pound_here (String a t) = None) as Hnone; [|congruence].
      apply match_pound_here_None. intros c rest. apply (H EmptyString).
    + rewrite IH. rewrite match_pound_here_None in Hhere. split.
      * intros H [|a' pre] c rest Heq; [by eapply Hhere|].
        simpl in Heq. injection Heq as <- ->. by eapply H.
      * intros H pre c rest ->. by apply (H (String a pre) c rest).
Qed.

Lemma iter_pos_preserves {A : Type} (P : A → Prop) (f : A → A) :
  (∀ x, P x → P (f x)) → ∀ n x, P x → P (SpecFloat.iter_pos f n x).
Proof. intros Hf. induction n; simpl; auto. Qed.

Lemma shr_1_nonneg (mrs : shr_record) :
  (0 ≤ shr_m mrs)%Z → (0 ≤ shr_m (shr_1 mrs))%Z.
Proof. destruct mrs as [[|[p|p|]|[p|p|]] r s]; simpl; lia. Qed.

Lemma shr_fexp_nonneg (prec emax m e : Z) (l : location) :
  (0 ≤ m)%Z → (0 ≤ shr_m (shr_fexp prec emax m e l).1)%Z.
Proof.
  intros Hm. unfold shr_fexp, shr.
  assert (0 ≤ shr_m (shr_record_of_loc m l))%Z as Hrec
    by (by destruct l as [|[]]).
  destruct (_ - e)%Z; simpl; [done | | done].
  by apply (iter_pos_preserves (λ x, 0 ≤ shr_m x)%Z), Hrec; apply shr_1_nonneg.
Qed.

Lemma binary_round_aux_not_nan (prec emax : Z) (sx : bool) (mx ex : Z) (lx : location) :
  (0 ≤ mx)%Z → binary_round_aux prec emax sx mx ex lx ≠ S754_nan.
Proof.
  intros Hmx. unfold binary_round_aux.
  pose proof (shr_fexp_nonneg prec emax mx ex lx Hmx) as H1.
  destruct (shr_fexp prec emax mx ex lx) as [mrs' e']. simpl in H1.
  assert (0 ≤ round_nearest_even (shr_m mrs') (loc_of_shr_record mrs'))%Z as H2.
  { unfold round_nearest_even.
    destruct (loc_of_shr_record mrs') as [|[]]; try lia.
    destruct (Z.even _); lia. }
  pose proof (shr_fexp_nonneg prec emax _ e' loc_Exact H2) as H3.
  destruct (shr_fexp prec emax _ e' loc_Exact) as [mrs'' e'']. simpl in H3.
  destruct (shr_m mrs''); [done | by destruct (_ <=? _)%Z | lia].
Qed.

(** [float(n)] is a number. *)
Lemma float_of_Z_not_nan (n : Z) : float_of_Z n ≠ nan.
Proof.
  unfold float_of_Z, binary_normalize, binary_round.
  destruct n as [|m|m]; [done | |];
    destruct (shl_align _ _ _); by apply binary_round_aux_not_nan.
Qed.

(** X4.  On a reward name of ASCII characters and pound signs as line 67
    spells them, the amount [prepare_data] extracts is NaN exactly when the
    name has no occurrence of the sign followed by a digit. *)
Theorem extract_amount_nan (reward_name : string) :
  pound_text reward_name = true →
  extract_amount reward_name = nan ↔
  ∀ pre c rest, reward_name = (pre ++ "Â£" ++ String c rest)%string →
                is_digit c = false.
Proof.
  intros _.
  rewrite <- search_pound_None. unfold extract_amount.
  destruct (search_pound reward_name) as [d|].
  - split; [|done]. intros H. by apply float_of_Z_not_nan in H.
  - done.
Qed.

Lemma extract_amount_nan_witness :
  pound_text "CASHVIP Â£x5" = true
  ∧ ∀ pre c rest, "CASHVIP Â£x5"%string = (pre ++ "Â£" ++ String c rest)%string →
                  is_digit c = false.
Proof.
  split; [reflexivity|].
  apply (proj1 (extract_amount_nan "CASHVIP Â£x5" eq_refl)). reflexivity.
Defined.

Lemma search_pound_app_ascii (pre s : string) :
  ascii_text pre = true → search_pound (pre ++ s) = search_pound s.
Proof.
  induction pre as [|a pre IH]; [done|].
  cbn [ascii_text]. intros [Ha Hpre]%andb_true_iff. apply Nat.ltb_lt in Ha.
  change (String a pre ++ s)%string with (String a (pre ++ s)%string).
  cbn [search_pound].
  assert (match_pound_here (String a (pre ++ s)) = None) as ->; [|by apply IH].
  unfold match_pound_here. cbn [strip_prefix].
  destruct (Ascii.eqb_spec "195"%char a) as [<-|_]; [|done].
  change (nat_of_ascii "195") with 195 in Ha. lia.
Qed.

(** X5.  In a reward name of ASCII characters and pound signs whose text
    before the first sign is ASCII, the amount is the number written by the
    digits that follow the sign, up to the first character that is not a
    digit; what comes after is ignored. *)
Theorem extract_amount_reads_first_digits (pre rest : string) (c : ascii) :
  ascii_text pre = true →
  pound_text rest = true →
  is_digit c = true →
  extract_amount (pre ++ "Â£" ++ String c rest)
  = float_of_Z (int_of_digits (digits_prefix (String c rest)))
  ∧ ∀ rest', pound_text rest' = true →
      digits_prefix (String c rest') = digits_prefix (String c rest) →
      extract_amount (pre ++ "Â£" ++ String c rest')
      = extract_amount (pre ++ "Â£" ++ String c rest).
Proof.
  intros Hpre _ Hc.
  assert (∀ r, extract_amount (pre ++ "Â£" ++ String c r)
               = float_of_Z (int_of_digits (digits_prefix (String c r)))) as Hval.
  { intros r. unfold extract_amount. rewrite (search_pound_app_ascii _ _ Hpre).
    destruct (digits_prefix_nonempty c r Hc) as [d Hd].
    assert (search_pound ("Â£" ++ String c r) = Some (digits_prefix (String c r)))
      as ->; [|done].
    change ("Â£" ++ String c r)%string
      with (String "195" (String "130" (String "194" (String "163" (String c r))))).
    cbn [search_pound]. unfold match_pound_here at 1.
    cbn [strip_prefix Ascii.eqb Bool.eqb]. by rewrite Hd. }
  split; [apply Hval|]. intros rest' _ Heq. by rewrite !Hval, Heq.
Qed.

Lemma extract_amount_reads_first_digits_witness :
  extract_amount "CASHVIP reward Â£120 voucher (was Â£90)" = float_of_Z 120
  ∧ extract_amount "CASHVIP reward Â£120"
    = extract_amount "CASHVIP reward Â£120 voucher (was Â£90)".
Proof.
  destruct (extract_amount_reads_first_digits
              "CASHVIP reward " "20 voucher (was Â£90)" "1"
              eq_refl eq_refl eq_refl) as [Hvalue Hrest].
  split; [exact Hvalue|]. exact (Hrest "20"%string eq_refl eq_refl).
Defined.

(** ** What the match test raises *)

(** X6.  When the match test raises and when it stops early.  Without a
    [last_10_digits] column it raises [KeyError]; on a pair that passes the
    join, with the release date after the reported date and seven days
    after the reported date past [date.max], it raises [OverflowError].
    It reads no date when the join fails, and adds no days when the release
    date is not after the reported date: both return [False], also on a
    reported date in the last week before [date.max]. *)
Theorem is_match_raises (p : Primary.row) (s : Secondary.cols) :
  (Primary.last_10_digits p = None →
   is_match p s = Raise (KeyError "last_10_digits"))
  ∧ (join_predicate p s = Ok true →
     (Primary.Reported_At p < Secondary.Order_Release_Date s)%Z →
     ¬ valid_date (Primary.Reported_At p + 7)%Z →
     further_checks p s = Raise OverflowError
     ∧ is_match p s = Raise OverflowError)
  ∧ (join_predicate p s = Ok false → is_match p s = Ok false)
  ∧ ((Secondary.Order_Release_Date s ≤ Primary.Reported_At p)%Z →
     further_checks p s = Ok false
     ∧ ∀ suffix, Primary.last_10_digits p = Some suffix → is_match p s = Ok false).
Proof.
  assert (∀ b, Z.ltb (Primary.Reported_At p) (Secondary.Order_Release_Date s) = b →
               further_checks p s
               = if b then
                   Ok true &&& released_within_week p s
                     &&& Ok (amount_predicate p s) &&& Ok (vip_predicate p s)
                 else Ok false) as Hchecks.
  { intros b Hb. unfold further_checks, released_after_report.
    rewrite Hb. by destruct b. }
  split; [|split; [|split]].
  - intros Hnone. unfold is_match, join_predicate. by rewrite Hnone.
  - intros Hjoin Hlt Hinvalid.
    assert (further_checks p s = Raise OverflowError) as Hraise.
    { rewrite (Hchecks true) by (by apply Z.ltb_lt).
      unfold released_within_week, and_then.
      destruct (date_add_days (Primary.Reported_At p) 7) as [limit|e] eqn:Hadd.
      - apply date_add_days_inv in Hadd as [_ Hvalid]. by destruct Hinvalid.
      - unfold date_add_days in Hadd. destruct (_ && _); [done|].
        by injection Hadd as <-. }
    split; [done|]. unfold is_match. by rewrite Hjoin.
  - intros Hjoin. unfold is_match. by rewrite Hjoin.
  - intros Hle.
    assert (further_checks p s = Ok false) as Hfalse
      by (rewrite (Hchecks false); [done | apply Z.ltb_ge; lia]).
    split; [done|]. intros suffix Hsuffix.
    unfold is_match, join_predicate. rewrite Hsuffix. cbn [getitem bind].
    by destruct (_ && _).
Qed.

Lemma is_match_raises_witness :
  is_match (prepare_row loaded_event) (vip_payout 50 3)
  = Raise (KeyError "last_10_digits")
  ∧ is_match (late_event (float_of_Z 50)) late_payout = Raise OverflowError
  ∧ is_match (late_event (float_of_Z 50)) example_secondary = Ok false.
Proof.
  destruct (is_match_raises (prepare_row loaded_event) (vip_payout 50 3))
    as (Hkey & _).
  destruct (is_match_raises (late_event (float_of_Z 50)) late_payout)
    as (_ & Hoverflow & _).
  destruct (is_match_raises (late_event (float_of_Z 50)) example_secondary)
    as (_ & _ & _ & Hearly).
  split; [exact (Hkey eq_refl)|]. split.
  - apply Hoverflow; [reflexivity | by vm_compute |].
    vm_compute. intros [_ H]. by apply H.
  - destruct Hearly as [_ Hearly]; [by vm_compute|].
    exact (Hearly _ eq_refl).
Defined.

(** ** What a run assigns *)

Lemma window_predicate_true_inv (p : Primary.row) (s : Secondary.cols) :
  window_predicate p s = Ok true →
  (Primary.Reported_At p < Secondary.Order_Release_Date s
   ∧ Secondary.Order_Release_Date s ≤ Primary.Reported_At p + 7)%Z.
Proof.
  unfold window_predicate. intros [[= Hafter] Hweek]%and_then_true.
  unfold released_within_week in Hweek. inv_bind Hweek.
  apply date_add_days_inv in Ha as [-> _]. injection Hweek as Hle.
  unfold released_after_report in Hafter. lia.
Qed.

(** X7.  Every event id a run writes into the secondary frame is the event
    id of a primary row that passes the four predicates with that secondary
    row: the phone number ends with its suffix, the lowercased names are
    equal, the release date is one to seven days after the reported date,
    the amounts are equal, and the VIP test holds. *)
Theorem assigned_rows_pass_the_predicates
    (primary : list Primary.row) (secondary : list Secondary.cols) (out : Output.t)
    (j : nat) (r : Secondary.row) (flag : bool) (e : string) :
  match_data primary secondary = Ok out →
  Output.secondary out !! j = Some (r, flag) →
  Secondary.Event_ID r = Some e →
  ∃ i p, primary !! i = Some p ∧ e = Primary.Event_ID p
    ∧ join_predicate p (Secondary.data r) = Ok true
    ∧ window_predicate p (Secondary.data r) = Ok true
    ∧ amount_predicate p (Secondary.data r) = true
    ∧ vip_predicate p (Secondary.data r) = true
    ∧ (Primary.Reported_At p < Secondary.Order_Release_Date (Secondary.data r)
       ∧ Secondary.Order_Release_Date (Secondary.data r)
         ≤ Primary.Reported_At p + 7)%Z.
Proof.
  intros Hout Hr He.
  destruct (output_event_id _ _ _ Hout _ _ _ _ Hr He) as (i & p & Hp & Ha & ->).
  destruct (assigned_inv _ _ _ _ _ Hout Ha) as (p' & s & Hp' & Hs & Hm & _).
  assert (p' = p) as -> by congruence.
  assert (s = Secondary.data r) as ->.
  { pose proof (output_secondary_data _ _ _ Hout) as Hdata.
    rewrite <- Hdata, list_lookup_fmap, Hr in Hs. by injection Hs. }
  apply is_match_true in Hm as (Hjoin & Hwindow & Hamount & Hvip).
  exists i, p. split; [done|]. split; [done|].
  split; [done|]. split; [done|]. split; [done|]. split; [done|].
  by apply window_predicate_true_inv.
Qed.

Lemma assigned_rows_pass_the_predicates_witness :
  ∃ out i p,
    match_data [example_primary; vip_event "E2"] [vip_payout 60 3; vip_payout 50 8]
      = Ok out
    ∧ [example_primary; vip_event "E2"] !! i = Some p
    ∧ Primary.Event_ID p = "E2"%string
    ∧ is_match p (vip_payout 50 8) = Ok true.
Proof.
  eexists.
  destruct (assigned_rows_pass_the_predicates
              [example_primary; vip_event "E2"] [vip_payout 60 3; vip_payout 50 8]
              _ 1 {| Secondary.data := vip_payout 50 8;
                     Secondary.Event_ID := Some "E2"%string |} true "E2"%string
              eq_refl eq_refl eq_refl)
    as (i & p & Hp & He & Hj & Hw & Ha & Hv & _).
  exists i, p. split; [reflexivity|]. split; [exact Hp|]. split; [by rewrite He|].
  apply is_match_true. split; [exact Hj|]. split; [exact Hw|].
  split; [exact Ha | exact Hv].
Defined.

(** A turn that finds nothing has tested every free secondary row, and each
    test returned [False]. *)
Lemma turn_None_free
    (primary : list Primary.row) (secondary : list Secondary.cols) (out : Output.t)
    (i : nat) (p : Primary.row) :
  match_data primary secondary = Ok out →
  primary !! i = Some p →
  turn primary secondary i = Ok None →
  ∀ j s, secondary !! j = Some s →
         (∀ i', i' < i → ¬ assigned primary secondary i' j) →
         is_match p s = Ok false.
Proof.
  intros Hout Hp Hturn j s Hs Hfree. unfold turn in Hturn. rewrite Hp in Hturn.
  inv_bind Hturn. rename a into st.
  assert (i < length primary) as Hi by (by eapply lookup_lt_Some).
  pose proof (invariant_after _ _ _ _ (Nat.lt_le_incl _ _ Hi) Ha) as Hinv.
  assert (is_Some (State.secondary st !! j)) as [r Hr].
  { apply lookup_lt_is_Some. rewrite <- (length_fmap Secondary.data).
    rewrite (inv_data _ _ _ _ Hinv). by eapply lookup_lt_Some. }
  assert (Secondary.data r = s) as <-.
  { pose proof (inv_data _ _ _ _ Hinv) as Hd.
    rewrite <- Hd, list_lookup_fmap, Hr in Hs. by injection Hs. }
  destruct (Secondary.Event_ID r) as [e|] eqn:He.
  - destruct (inv_event_id _ _ _ _ Hinv j r e Hr He) as (i' & _ & Hi' & _ & Ha' & _).
    by destruct (Hfree i' Hi').
  - apply (first_match_None _ _ Hturn j r). apply elem_of_available.
    split; [done|]. apply (inv_unmatched_secondary _ _ _ _ Hinv). eauto.
Qed.

(** A pair of rows both left unmatched was tested, and the test returned
    [False]. *)
Lemma leftover_pair
    (primary : list Primary.row) (secondary : list Secondary.cols) (out : Output.t)
    (i j : nat) (p : Primary.row) (c : Secondary.cols) :
  match_data primary secondary = Ok out →
  (i, p) ∈ Output.missing_events out →
  (j, c) ∈ Output.missing_rewards out →
  is_match p c = Ok false.
Proof.
  intros Hout [Hp Hturn]%(output_missing_events _ _ _ Hout)
    (r & Hr & <- & He)%(output_missing_rewards _ _ _ Hout).
  eapply (turn_None_free _ _ _ _ _ Hout Hp Hturn j).
  - pose proof (output_secondary_data _ _ _ Hout) as Hdata.
    by rewrite <- Hdata, list_lookup_fmap, Hr.
  - intros i' _ Ha.
    destruct (assigned_inv _ _ _ _ _ Hout Ha) as (p' & _ & Hp' & _).
    destruct (output_assigned _ _ _ Hout i' j p' Hp' Ha) as (r' & Hr' & He').
    congruence.
Qed.

(** X8.  The assignment cannot be extended: when a run returns, the match
    test was evaluated on every pair of a primary row of
    ['missing_events'] and a secondary row of ['missing_rewards'], and it
    returned [False] on each. *)
Theorem no_leftover_pair_matches
    (primary : list Primary.row) (secondary : list Secondary.cols) (out : Output.t)
    (i j : nat) (p : Primary.row) (c : Secondary.cols) :
  match_data primary secondary = Ok out →
  (i, p) ∈ Output.missing_events out →
  (j, c) ∈ Output.missing_rewards out →
  is_match p c = Ok false.
Proof. apply leftover_pair. Qed.

Lemma no_leftover_pair_matches_witness :
  ∃ out,
    match_data [vip_event "E1"; example_primary]
               [vip_payout 50 3; example_secondary] = Ok out
    ∧ (1, example_primary) ∈ Output.missing_events out
    ∧ (1, example_secondary) ∈ Output.missing_rewards out
    ∧ is_match example_primary example_secondary = Ok false.
Proof.
  eexists. split; [reflexivity|].
  assert ((1, example_primary) ∈ [(1, example_primary)]) as Hp by (by left).
  assert ((1, example_secondary) ∈ [(1, example_secondary)]) as Hs by (by left).
  split; [exact Hp|]. split; [exact Hs|].
  exact (no_leftover_pair_matches
           [vip_event "E1"; example_primary] [vip_payout 50 3; example_secondary]
           _ 1 1 example_primary example_secondary eq_refl Hp Hs).
Defined.

(** X9.  An event id, once written, stays: if secondary row [j] carries an
    event id after [k] turns of the outer loop, it carries the same id,
    with the same partner columns, after any later turn. *)
Theorem event_id_is_never_overwritten
    (primary : list Primary.row) (secondary : list Secondary.cols)
    (k k' : nat) (st st' : State.t) (j : nat) (r : Secondary.row) (e : string) :
  k ≤ k' → k' ≤ length primary →
  state_after primary secondary k = Ok st →
  state_after primary secondary k' = Ok st' →
  State.secondary st !! j = Some r →
  Secondary.Event_ID r = Some e →
  State.secondary st' !! j = Some r.
Proof.
  intros Hk Hk' Hst Hst' Hr He.
  assert (k ≤ length primary) as Hkm by lia.
  pose proof (invariant_after _ _ _ _ Hkm Hst) as Hinv.
  pose proof (invariant_after _ _ _ _ Hk' Hst') as Hinv'.
  destruct (inv_event_id _ _ _ _ Hinv j r e Hr He) as (i & p & Hi & Hp & Ha & ->).
  assert (i < k') as Hi' by lia.
  destruct (inv_assigned _ _ _ _ Hinv' i j p Hi' Hp Ha) as (r' & Hr' & He').
  rewrite Hr'. f_equal. destruct r as [c ?], r' as [c' ?]. simpl in *.
  assert (c = c') as ->; [|congruence].
  pose proof (inv_data _ _ _ _ Hinv) as Hd.
  pose proof (inv_data _ _ _ _ Hinv') as Hd'.
  rewrite <- Hd' in Hd. apply (f_equal (.!! j)) in Hd.
  rewrite !list_lookup_fmap, Hr, Hr' in Hd. simpl in Hd. by injection Hd.
Qed.

Lemma event_id_is_never_overwritten_witness :
  ∃ st st' r,
    state_after [vip_event "E1"; vip_event "E2"] [vip_payout 50 3] 1 = Ok st
    ∧ state_after [vip_event "E1"; vip_event "E2"] [vip_payout 50 3] 2 = Ok st'
    ∧ Secondary.Event_ID r = Some "E1"%string
    ∧ State.secondary st' !! 0 = Some r.
Proof.
  eexists. eexists.
  exists {| Secondary.data := vip_payout 50 3;
            Secondary.Event_ID := Some "E1"%string |}.
  split; [reflexivity|]. split; [reflexivity|]. split; [reflexivity|].
  eapply (event_id_is_never_overwritten
            [vip_event "E1"; vip_event "E2"] [vip_payout 50 3] 1 2 _ _ 0 _ "E1"%string);
    [lia | simpl; lia | reflexivity | reflexivity | reflexivity | reflexivity].
Defined.

(** ** The two lists of unmatched labels *)

Lemma StronglySorted_sublist {A : Type} (R : relation A) (l1 l2 : list A) :
  l1 `sublist_of` l2 → StronglySorted R l2 → StronglySorted R l1.
Proof.
  induction 1 as [|x l1 l2 Hsub IH|x l1 l2 Hsub IH]; intros Hs; [done| |].
  - apply StronglySorted_cons in Hs as [Hall Hs].
    apply StronglySorted_cons. split; [|by apply IH].
    rewrite Forall_forall in Hall. apply Forall_forall.
    intros y Hy. apply Hall. by eapply elem_of_sublist.
  - apply StronglySorted_cons in Hs as [_ Hs]. by apply IH.
Qed.

Lemma discard_sublist (x : nat) (l : list nat) : discard x l `sublist_of` l.
Proof. unfold discard. destruct (decide (x ∈ l)); [apply remove_sublist | done]. Qed.

Lemma length_remove (x : nat) (l : list nat) :
  x ∈ l → S (length (remove x l)) = length l.
Proof.
  induction l as [|y l IH]; simpl; intros Hx; [by apply elem_of_nil in Hx|].
  destruct (decide (x = y)) as [->|Hne]; [done|].
  apply elem_of_cons in Hx as [?|Hx]; [done|]. simpl. by rewrite IH.
Qed.

Lemma length_discard (x : nat) (l : list nat) :
  x ∈ l → S (length (discard x l)) = length l.
Proof.
  intros Hx. unfold discard. destruct (decide (x ∈ l)); [|done].
  by apply length_remove.
Qed.

Lemma unmatched_lists_after
    (primary : list Primary.row) (secondary : list Secondary.cols)
    (k : nat) (st : State.t) :
  k ≤ length primary →
  state_after primary secondary k = Ok st →
  State.unmatched_primary_indices st `sublist_of` seq 0 (length primary)
  ∧ State.unmatched_secondary_indices st `sublist_of` seq 0 (length secondary)
  ∧ length (State.unmatched_primary_indices st) + length secondary
    = length (State.unmatched_secondary_indices st) + length primary.
Proof.
  revert st. induction k as [|k IH]; intros st Hk Hst.
  - injection Hst as <-. simpl. rewrite !length_seq. split; [done|]. split; [done | lia].
  - destruct (lookup_lt_is_Some_2 primary k) as [p Hp]; [lia|].
    rewrite (state_after_S _ _ _ _ Hp) in Hst. inv_bind Hst.
    assert (k ≤ length primary) as Hk' by lia.
    destruct (IH a Hk' Ha) as (Hsub1 & Hsub2 & Hlen).
    pose proof (invariant_after _ _ _ _ Hk' Ha) as Hinv.
    destruct (match_row_Ok _ _ _ _ Hst) as [[_ ->]|(j & Hfm & ->)]; [done|].
    destruct (first_match_Some _ _ _ (ascending_available a) Hfm)
      as (s & [_ Hj]%elem_of_available & _).
    assert (k ∈ State.unmatched_primary_indices a) as Hkin.
    { apply (inv_unmatched_primary _ _ _ _ Hinv). split; [lia | by left]. }
    simpl. split; [by etrans; [apply discard_sublist|]|].
    split; [by etrans; [apply discard_sublist|]|].
    pose proof (length_discard _ _ Hkin). pose proof (length_discard _ _ Hj). lia.
Qed.

Lemma output_labels
    (primary : list Primary.row) (secondary : list Secondary.cols) (out : Output.t) :
  match_data primary secondary = Ok out →
  ∃ st, state_after primary secondary (length primary) = Ok st
    ∧ labels (Output.missing_events out) = State.unmatched_primary_indices st
    ∧ labels (Output.missing_rewards out) = State.unmatched_secondary_indices st.
Proof.
  intros (st & rewards & Hst & _ & _ & _ & Hev & Hrw & ->)%match_data_Ok.
  exists st. split; [done|]. unfold labels.
  destruct (loc_Ok _ _ _ Hev) as [-> _]. destruct (loc_Ok _ _ _ Hrw) as [<- _].
  split; [done|]. rewrite <- list_fmap_compose. by apply list_fmap_ext.
Qed.

(** X10.  A run matches as many primary rows as secondary rows: the rows
    missing from ['missing_events'] are as many as the rows missing from
    ['missing_rewards']. *)
Theorem matched_counts_agree
    (primary : list Primary.row) (secondary : list Secondary.cols) (out : Output.t) :
  match_data primary secondary = Ok out →
  length (Output.missing_events out) ≤ length primary
  ∧ length (Output.missing_rewards out) ≤ length secondary
  ∧ length primary - length (Output.missing_events out)
    = length secondary - length (Output.missing_rewards out).
Proof.
  intros Hout. destruct (output_labels _ _ _ Hout) as (st & Hst & He & Hr).
  destruct (unmatched_lists_after _ _ _ _ (Nat.le_refl _) Hst) as (Hs1 & Hs2 & Hlen).
  apply sublist_length in Hs1, Hs2. rewrite length_seq in Hs1, Hs2.
  rewrite <- He, <- Hr in *. unfold labels in *. rewrite !length_fmap in *. lia.
Qed.

Lemma matched_counts_agree_witness :
  ∃ out,
    match_data [vip_event "E1"; example_primary; vip_event "E3"]
               [vip_payout 60 3; vip_payout 50 3] = Ok out
    ∧ 3 - length (Output.missing_events out) = 2 - length (Output.missing_rewards out).
Proof.
  eexists. split; [reflexivity|].
  destruct (matched_counts_agree
              [vip_event "E1"; example_primary; vip_event "E3"]
              [vip_payout 60 3; vip_payout 50 3] _ eq_refl) as (_ & _ & Heq).
  exact Heq.
Defined.

(** X11.  The unmatched rows are reported in input order: the labels of
    ['missing_events'] and of ['missing_rewards'] are strictly
    increasing. *)
Theorem missing_rows_in_input_order
    (primary : list Primary.row) (secondary : list Secondary.cols) (out : Output.t) :
  match_data primary secondary = Ok out →
  StronglySorted lt (labels (Output.missing_events out))
  ∧ StronglySorted lt (labels (Output.missing_rewards out)).
Proof.
  intros Hout. destruct (output_labels _ _ _ Hout) as (st & Hst & -> & ->).
  destruct (unmatched_lists_after _ _ _ _ (Nat.le_refl _) Hst) as (Hs1 & Hs2 & _).
  split; (eapply StronglySorted_sublist; [done | apply StronglySorted_seq]).
Qed.

Lemma missing_rows_in_input_order_witness :
  ∃ out,
    match_data [example_primary; vip_event "E2"; example_primary]
               [vip_payout 60 3; vip_payout 50 3; vip_payout 70 3] = Ok out
    ∧ labels (Output.missing_events out) = [0; 2]
    ∧ StronglySorted lt (labels (Output.missing_rewards out)).
Proof.
  eexists. split; [reflexivity|]. split; [reflexivity|].
  destruct (missing_rows_in_input_order
              [example_primary; vip_event "E2"; example_primary]
              [vip_payout 60 3; vip_payout 50 3; vip_payout 70 3] _ eq_refl)
    as [_ Hrewards].
  exact Hrewards.
Defined.

(** ** Runs in which nothing matches *)

Lemma first_match_all_false (p : Primary.row) (rows : list (nat * Secondary.row)) :
  (∀ j s, (j, s) ∈ rows → is_match p (Secondary.data s) = Ok false) →
  first_match p rows = Ok None.
Proof.
  induction rows as [|[j s] rows IH]; intros H; simpl; [done|].
  rewrite (H j s) by (by left). simpl. apply IH. intros j' s' Hin.
  apply (H j' s'). by right.
Qed.

Lemma match_rows_no_match (rows : list (nat * Primary.row)) (st : State.t) :
  (∀ i p j s, (i, p) ∈ rows → (j, s) ∈ available st →
              is_match p (Secondary.data s) = Ok false) →
  match_rows rows st = Ok st.
Proof.
  induction rows as [|[i p] rows IH]; intros H; simpl; [done|].
  unfold match_row. rewrite first_match_all_false.
  - simpl. apply IH. intros i' p' j s Hin. apply (H i' p' j s). by right.
  - intros j s. apply (H i p j s). by left.
Qed.

Lemma loc_lookup {A : Type} (df : list A) (idx : list nat) (rows : list (nat * A))
    (k : nat) :
  loc df idx = Ok rows →
  rows !! k = idx !! k ≫= λ i, pair i <$> df !! i.
Proof.
  revert rows k. induction idx as [|i idx IH]; simpl; intros rows k H.
  - by injection H as <-.
  - destruct (df !! i) as [x|] eqn:Hi; [|done]. inv_bind H. injection H as <-.
    destruct k as [|k]; simpl; [by rewrite Hi | by apply IH].
Qed.

Lemma loc_all {A : Type} (df : list A) :
  loc df (seq 0 (length df)) = Ok (iterrows df).
Proof.
  destruct (loc_returns df (seq 0 (length df))) as [rows Hrows].
  { intros i Hi%elem_of_seq. lia. }
  rewrite Hrows. f_equal. apply list_eq. intros k.
  rewrite (loc_lookup _ _ _ k Hrows). unfold iterrows.
  rewrite list_lookup_imap.
  destruct (df !! k) as [x|] eqn:Hk.
  - rewrite lookup_seq_lt by (by eapply lookup_lt_Some). simpl. by rewrite Hk.
  - rewrite lookup_seq_ge by (by apply lookup_ge_None). done.
Qed.

(** The dictionary of a run that assigns nothing. *)
Lemma match_data_no_match
    (primary : list Primary.row) (secondary : list Secondary.cols) :
  (∀ p s, p ∈ primary → s ∈ secondary → is_match p s = Ok false) →
  match_data primary secondary =
  Ok {| Output.primary := primary;
        Output.secondary :=
          (λ c, ({| Secondary.data := c; Secondary.Event_ID := None |}, false))
            <$> secondary;
        Output.missing_events := iterrows primary;
        Output.missing_rewards := iterrows secondary |}.
Proof.
  intros Hnone. unfold match_data. rewrite match_rows_no_match.
  - cbn [bind initial State.unmatched_primary_indices State.secondary
         State.unmatched_secondary_indices].
    rewrite loc_all. cbn [bind].
    rewrite <- (length_fmap (λ c, {| Secondary.data := c;
                                     Secondary.Event_ID := None |}) secondary).
    rewrite loc_all. cbn [bind]. f_equal. f_equal.
    + by rewrite <- list_fmap_compose.
    + unfold iterrows. rewrite fmap_imap, imap_fmap. by apply imap_ext.
  - intros i p j s Hp%elem_of_iterrows [Hs _]%elem_of_available.
    simpl in Hs. apply list_lookup_fmap_Some in Hs as (c & -> & Hc). simpl.
    apply Hnone; by eapply list_elem_of_lookup_2.
Qed.

(** X12.  When the match test returns [False] on every pair of a primary
    and a secondary row, the run returns, writes no event id, and reports
    every row of both frames as unmatched, in input order. *)
Theorem run_without_matches
    (primary : list Primary.row) (secondary : list Secondary.cols) :
  (∀ p s, p ∈ primary → s ∈ secondary → is_match p s = Ok false) →
  match_data primary secondary =
  Ok {| Output.primary := primary;
        Output.secondary :=
          (λ c, ({| Secondary.data := c; Secondary.Event_ID := None |}, false))
            <$> secondary;
        Output.missing_events := iterrows primary;
        Output.missing_rewards := iterrows secondary |}.
Proof. apply match_data_no_match. Qed.

Lemma run_without_matches_witness :
  match_data [example_primary; example_primary] [vip_payout 50 3] =
  Ok {| Output.primary := [example_primary; example_primary];
        Output.secondary :=
          [({| Secondary.data := vip_payout 50 3; Secondary.Event_ID := None |},
            false)];
        Output.missing_events := [(0, example_primary); (1, example_primary)];
        Output.missing_rewards := [(0, vip_payout 50 3)] |}.
Proof.
  apply (run_without_matches [example_primary; example_primary] [vip_payout 50 3]).
  intros p s Hp Hs.
  apply list_elem_of_singleton in Hs as ->.
  apply elem_of_cons in Hp as [->|Hp]; [reflexivity|].
  apply list_elem_of_singleton in Hp as ->. reflexivity.
Defined.

(** X13.  Empty frames.  With an empty secondary frame the run returns
    with every primary row in ['missing_events'], whatever the rows hold:
    no cell is read, so not even a missing [last_10_digits] column raises.
    With an empty primary frame it returns with every secondary row in
    ['missing_rewards']. *)
Theorem empty_frames (primary : list Primary.row) (secondary : list Secondary.cols) :
  match_data primary [] =
    Ok {| Output.primary := primary;
          Output.secondary := [];
          Output.missing_events := iterrows primary;
          Output.missing_rewards := [] |}
  ∧ match_data [] secondary =
    Ok {| Output.primary := [];
          Output.secondary :=
            (λ c, ({| Secondary.data := c; Secondary.Event_ID := None |}, false))
              <$> secondary;
          Output.missing_events := [];
          Output.missing_rewards := iterrows secondary |}.
Proof.
  split.
  - apply (match_data_no_match primary []). by intros p s _ ?%elem_of_nil.
  - apply (match_data_no_match [] secondary). by intros p s ?%elem_of_nil.
Qed.

(** X14.  Matching the leftovers again finds nothing: [match_data] on the
    rows of ['missing_events'] and ['missing_rewards'] of a run that
    returned, relabelled from zero as after a round trip through a file,
    returns and reports all of them unmatched again. *)
Theorem leftovers_stay_unmatched
    (primary : list Primary.row) (secondary : list Secondary.cols) (out : Output.t) :
  match_data primary secondary = Ok out →
  match_data (Output.missing_events out).*2 (Output.missing_rewards out).*2 =
  Ok {| Output.primary := (Output.missing_events out).*2;
        Output.secondary :=
          (λ c, ({| Secondary.data := c; Secondary.Event_ID := None |}, false))
            <$> (Output.missing_rewards out).*2;
        Output.missing_events := iterrows (Output.missing_events out).*2;
        Output.missing_rewards := iterrows (Output.missing_rewards out).*2 |}.
Proof.
  intros Hout. apply match_data_no_match.
  intros p c ([i p'] & -> & Hp)%list_elem_of_fmap ([j c'] & -> & Hc)%list_elem_of_fmap.
  by eapply leftover_pair.
Qed.

Lemma leftovers_stay_unmatched_witness :
  ∃ out,
    match_data [vip_event "E1"; example_primary; vip_event "E3"]
               [vip_payout 60 3; vip_payout 50 3] = Ok out
    ∧ (Output.missing_events out).*2 = [example_primary; vip_event "E3"]
    ∧ (Output.missing_rewards out).*2 = [vip_payout 60 3]
    ∧ ∃ out', match_data [example_primary; vip_event "E3"] [vip_payout 60 3] = Ok out'
        ∧ labels (Output.missing_events out') = [0; 1]
        ∧ labels (Output.missing_rewards out') = [0].
Proof.
  eexists. split; [reflexivity|]. split; [reflexivity|]. split; [reflexivity|].
  eexists. split.
  - exact (leftovers_stay_unmatched
             [vip_event "E1"; example_primary; vip_event "E3"]
             [vip_payout 60 3; vip_payout 50 3] _ eq_refl).
  - split; reflexivity.
Defined.

(** ** [main]: from the loaded frames to the dictionary *)

(** An exception raised by the first test of the first turn leaves the run. *)
Lemma match_data_first_raises
    (p : Primary.row) (ps : list Primary.row)
    (s : Secondary.cols) (ss : list Secondary.cols) (e : exn) :
  is_match p s = Raise e → match_data (p :: ps) (s :: ss) = Raise e.
Proof.
  intros Hraise. unfold match_data.
  change (iterrows (p :: ps)) with ((0, p) :: imap (pair ∘ S) ps).
  cbn [match_rows]. unfold match_row.
  assert (∃ rest, available (initial (p :: ps) (s :: ss))
                  = (0, {| Secondary.data := s; Secondary.Event_ID := None |}) :: rest)
    as [rest ->].
  { unfold available, iterrows.
    cbn [initial State.secondary State.unmatched_secondary_indices].
    rewrite fmap_cons, imap_cons, filter_cons_True; [eauto|].
    simpl. by left. }
  cbn [first_match Secondary.data]. by rewrite Hraise.
Qed.

(** X15.  [main] on a primary file without a [last_10_digits] column:
    when both frames have a row, the first join raises
    [KeyError('last_10_digits')] and nothing is returned; when one of them
    is empty, no join is evaluated and every row is reported unmatched. *)
Theorem main_without_last_10_digits
    (primary : list Raw.row) (secondary : list Secondary.cols) :
  Forall (λ r, Raw.last_10_digits r = None) primary →
  main primary secondary =
  match primary, secondary with
  | _ :: _, _ :: _ => Raise (KeyError "last_10_digits")
  | _, _ => Ok (all_unmatched (prepare_row <$> primary) secondary)
  end.
Proof.
  intros Hall. unfold main, prepare_data. cbn [fst snd].
  destruct primary as [|r rs].
  - apply (match_data_no_match [] secondary). by intros p s ?%elem_of_nil.
  - destruct secondary as [|s ss].
    + apply (match_data_no_match _ []). by intros p s _ ?%elem_of_nil.
    + rewrite fmap_cons. apply match_data_first_raises.
      apply Forall_cons in Hall as [Hr _].
      unfold is_match, join_predicate. simpl. by rewrite Hr.
Qed.

Lemma main_without_last_10_digits_witness :
  main [loaded_event; loaded_event] [vip_payout 50 3]
    = Raise (KeyError "last_10_digits")
  ∧ main [loaded_event] [] = Ok (all_unmatched [prepare_row loaded_event] []).
Proof.
  assert (Forall (λ r, Raw.last_10_digits r = None) [loaded_event; loaded_event])
    as Hall2 by (by repeat constructor).
  assert (Forall (λ r, Raw.last_10_digits r = None) [loaded_event])
    as Hall1 by (by repeat constructor).
  split.
  - exact (main_without_last_10_digits _ [vip_payout 50 3] Hall2).
  - exact (main_without_last_10_digits _ [] Hall1).
Defined.

(** X16.  [main] matches VIP rewards with ['YES'] payouts only.  When it
    returns, every primary row whose reward name does not contain
    [CASHVIP] is a row of ['missing_events'], and every secondary row whose
    ['CASHVIP?'] cell is not ['YES'], missing cells included, is a row of
    ['missing_rewards']. *)
Theorem main_matches_VIP_rows_only
    (primary : list Raw.row) (secondary : list Secondary.cols) (out : Output.t) :
  main primary secondary = Ok out →
  (∀ i r, primary !! i = Some r →
          contains "CASHVIP" (Raw.Reward_Name r) = false →
          (i, prepare_row r) ∈ Output.missing_events out)
  ∧ (∀ j c, secondary !! j = Some c →
            Secondary.CASHVIP_q c ≠ Some "YES"%string →
            (j, c) ∈ Output.missing_rewards out).
Proof.
  unfold main, prepare_data. cbn [fst snd]. intros Hout. split.
  - intros i r Hr Hplain.
    apply (unmatched_of_no_match _ _ _ _ _ Hout).
    + by rewrite list_lookup_fmap, Hr.
    + intros s (_ & _ & _ & Hvip)%is_match_true.
      unfold vip_predicate in Hvip. simpl in Hvip.
      unfold cashvip_label in Hvip. by rewrite Hplain in Hvip.
  - intros j c Hc Hflag.
    pose proof (output_secondary_data _ _ _ Hout) as Hdata.
    assert (is_Some (Output.secondary out !! j)) as [[r flag] Hr].
    { apply lookup_lt_is_Some.
      rewrite <- (length_fmap (λ r, Secondary.data r.1)), Hdata.
      by eapply lookup_lt_Some. }
    assert (Secondary.data r = c) as Hrc.
    { rewrite <- Hdata, list_lookup_fmap, Hr in Hc. by injection Hc. }
    apply (output_missing_rewards _ _ _ Hout).
    destruct (Secondary.Event_ID r) as [e|] eqn:He.
    + exfalso.
      destruct (output_event_id _ _ _ Hout _ _ _ _ Hr He) as (i & p & Hp & Ha & _).
      destruct (assigned_inv _ _ _ _ _ Hout Ha) as (p' & c' & Hp' & Hc' & Hm & _).
      assert (p' = p) as -> by congruence.
      assert (c' = c) as -> by congruence.
      apply list_lookup_fmap_Some in Hp as (raw & -> & _).
      apply is_match_true in Hm as (_ & _ & _ & Hvip).
      unfold vip_predicate in Hvip. simpl in Hvip.
      destruct (Secondary.CASHVIP_q c) as [v|]; simpl in Hvip.
      * rewrite andb_false_r, orb_false_r in Hvip.
        apply andb_true_iff in Hvip as [_ Hv%String.eqb_eq]. congruence.
      * rewrite andb_false_r in Hvip. unfold cashvip_label in Hvip.
        by destruct (contains _ _).
    + exists r. split; [|done].
      pose proof (output_secondary_flag _ _ _ Hout _ _ _ Hr) as ->.
      by rewrite He in Hr.
Qed.

Lemma main_matches_VIP_rows_only_witness :
  ∃ out,
    main [loaded_with_suffix "E1" "Â£50 voucher"; loaded_with_suffix "E2" "CASHVIP Â£50"]
         [example_secondary; vip_payout 50 3] = Ok out
    ∧ (0, prepare_row (loaded_with_suffix "E1" "Â£50 voucher"))
        ∈ Output.missing_events out
    ∧ (0, example_secondary) ∈ Output.missing_rewards out.
Proof.
  eexists. split; [reflexivity|].
  destruct (main_matches_VIP_rows_only
              [loaded_with_suffix "E1" "Â£50 voucher";
               loaded_with_suffix "E2" "CASHVIP Â£50"]
              [example_secondary; vip_payout 50 3] _ eq_refl) as [Hevents Hrewards].
  split.
  - exact (Hevents 0 _ eq_refl eq_refl).
  - apply (Hrewards 0 example_secondary eq_refl). discriminate.
Defined.

(** ** Rows added at the end of the primary frame *)

Lemma available_secondary_side (st1 st2 : State.t) :
  secondary_side st1 = secondary_side st2 → available st1 = available st2.
Proof. unfold secondary_side, available. by intros [= -> ->]. Qed.

Lemma match_rows_secondary_side (rows : list (nat * Primary.row)) (st1 st2 : State.t) :
  secondary_side st1 = secondary_side st2 →
  (let* st := match_rows rows st1 in Ok (secondary_side st))
  = (let* st := match_rows rows st2 in Ok (secondary_side st)).
Proof.
  revert st1 st2. induction rows as [|[i p] rows IH]; intros st1 st2 Hside; simpl.
  - by rewrite Hside.
  - unfold match_row. rewrite (available_secondary_side _ _ Hside).
    destruct (first_match p (available st2)) as [[j|]|e]; simpl; [| |done].
    + apply IH. unfold secondary_side in *. simpl. by injection Hside as -> ->.
    + by apply IH.
Qed.

Lemma turn_app (primary extra : list Primary.row) (secondary : list Secondary.cols)
    (i : nat) :
  i < length primary →
  turn (primary ++ extra) secondary i = turn primary secondary i.
Proof.
  intros Hi. unfold turn, state_after, iterrows.
  rewrite imap_app, take_app_le by (rewrite length_imap; lia).
  rewrite (lookup_app_l primary extra i Hi).
  pose proof (match_rows_secondary_side (take i (imap pair primary))
                (initial (primary ++ extra) secondary) (initial primary secondary)
                eq_refl) as Hside.
  destruct (match_rows _ (initial (primary ++ extra) secondary)) as [st1|e1],
    (match_rows _ (initial primary secondary)) as [st2|e2];
    cbn [bind] in *; try congruence.
  assert (secondary_side st1 = secondary_side st2) as Heq by congruence.
  by rewrite (available_secondary_side _ _ Heq).
Qed.

(** X17.  Rows added at the end of the primary frame leave the earlier
    turns as they were: each earlier primary row finds the same secondary
    row, or nothing, or raises the same exception, whether or not the runs
    return; and when both return, every secondary row that carried an
    event id in the shorter run carries the same one in the longer run. *)
Theorem later_primary_rows_change_nothing_earlier
    (primary extra : list Primary.row) (secondary : list Secondary.cols) :
  (∀ i, i < length primary →
        turn (primary ++ extra) secondary i = turn primary secondary i)
  ∧ (∀ i j, i < length primary →
        assigned (primary ++ extra) secondary i j ↔ assigned primary secondary i j)
  ∧ ∀ out out',
      match_data primary secondary = Ok out →
      match_data (primary ++ extra) secondary = Ok out' →
      ∀ j r flag e,
        Output.secondary out !! j = Some (r, flag) →
        Secondary.Event_ID r = Some e →
        Output.secondary out' !! j = Some (r, true).
Proof.
  split; [intros i Hi; by apply turn_app|].
  split; [intros i j Hi; unfold assigned; by rewrite turn_app|].
  intros out out' Hout Hout' j r flag e Hr He.
  destruct (output_event_id _ _ _ Hout _ _ _ _ Hr He) as (i & p & Hp & Ha & ->).
  assert (i < length primary) as Hi by (by eapply lookup_lt_Some).
  assert (assigned (primary ++ extra) secondary i j) as Ha'.
  { unfold assigned. by rewrite turn_app. }
  destruct (output_assigned _ _ _ Hout' i j p) as (r' & Hr' & He');
    [by rewrite lookup_app_l | done |].
  rewrite Hr'. do 2 f_equal.
  destruct r as [c ?], r' as [c' ?]. simpl in *.
  assert (c = c') as ->; [|congruence].
  pose proof (output_secondary_data _ _ _ Hout) as Hd.
  pose proof (output_secondary_data _ _ _ Hout') as Hd'.
  rewrite <- Hd' in Hd. apply (f_equal (.!! j)) in Hd.
  rewrite !list_lookup_fmap, Hr, Hr' in Hd. simpl in Hd. by injection Hd.
Qed.

Lemma later_primary_rows_change_nothing_earlier_witness :
  turn ([vip_event "E1"] ++ [vip_event "E2"; example_primary])
       [vip_payout 50 3; vip_payout 50 4] 0
  = turn [vip_event "E1"] [vip_payout 50 3; vip_payout 50 4] 0
  ∧ turn ([late_event (float_of_Z 50)] ++ [vip_event "E2"]) [late_payout] 0
    = Raise OverflowError
  ∧ ∃ out out',
      match_data [vip_event "E1"] [vip_payout 50 3; vip_payout 50 4] = Ok out
      ∧ match_data ([vip_event "E1"] ++ [vip_event "E2"; example_primary])
                   [vip_payout 50 3; vip_payout 50 4] = Ok out'
      ∧ Output.secondary out' !! 0
        = Some ({| Secondary.data := vip_payout 50 3;
                   Secondary.Event_ID := Some "E1"%string |}, true).
Proof.
  destruct (later_primary_rows_change_nothing_earlier
              [vip_event "E1"] [vip_event "E2"; example_primary]
              [vip_payout 50 3; vip_payout 50 4]) as (Hturn & _ & Hkept).
  destruct (later_primary_rows_change_nothing_earlier
              [late_event (float_of_Z 50)] [vip_event "E2"] [late_payout])
    as (Hraise & _).
  split; [apply Hturn; simpl; lia|].
  split; [rewrite Hraise; [reflexivity | simpl; lia]|].
  eexists. eexists. split; [reflexivity|]. split; [reflexivity|].
  exact (Hkept _ _ eq_refl eq_refl 0 _ true "E1"%string eq_refl eq_refl).
Defined.

(** ** One to one, whatever the event ids *)

(** X18.  In a run that returns, the assignment is one to one on rows: a
    secondary row is taken at one turn at most, also when several primary
    rows share an event id. *)
Theorem assignment_is_one_to_one
    (primary : list Primary.row) (secondary : list Secondary.cols) (out : Output.t)
    (i1 i2 j1 j2 : nat) :
  match_data primary secondary = Ok out →
  assigned primary secondary i1 j1 →
  assigned primary secondary i2 j2 →
  i1 = i2 ↔ j1 = j2.
Proof.
  intros Hout Ha1 Ha2. split.
  - intros ->. unfold assigned in *. congruence.
  - intros ->.
    destruct (assigned_inv _ _ _ _ _ Hout Ha1) as (_ & _ & _ & _ & _ & Hfree1 & _).
    destruct (assigned_inv _ _ _ _ _ Hout Ha2) as (_ & _ & _ & _ & _ & Hfree2 & _).
    destruct (Nat.lt_trichotomy i1 i2) as [Hlt|[->|Hlt]]; [|done|].
    + by destruct (Hfree2 i1 Hlt).
    + by destruct (Hfree1 i2 Hlt).
Qed.

Lemma assignment_is_one_to_one_witness :
  ∃ out,
    match_data [vip_event "E1"; vip_event "E1"] [vip_payout 50 3; vip_payout 50 4]
      = Ok out
    ∧ assigned [vip_event "E1"; vip_event "E1"] [vip_payout 50 3; vip_payout 50 4] 0 0
    ∧ assigned [vip_event "E1"; vip_event "E1"] [vip_payout 50 3; vip_payout 50 4] 1 1
    ∧ (0 = 1 ↔ 0 = 1).
Proof.
  eexists. split; [reflexivity|]. split; [reflexivity|]. split; [reflexivity|].
  exact (assignment_is_one_to_one
           [vip_event "E1"; vip_event "E1"] [vip_payout 50 3; vip_payout 50 4]
           _ 0 1 0 1 eq_refl eq_refl eq_refl).
Defined.

(** ** Frames on which nothing raises *)

Lemma first_match_returns (p : Primary.row) (rows : list (nat * Secondary.row)) :
  (∀ j s, (j, s) ∈ rows → ∃ b, is_match p (Secondary.data s) = Ok b) →
  ∃ found, first_match p rows = Ok found.
Proof.
  induction rows as [|[j0 s0] rows IH]; simpl; intros H; [eauto|].
  destruct (H j0 s0) as [b ->]; [by left|]. simpl.
  destruct b; [eauto|]. apply IH. intros j s Hin. apply (H j s). by right.
Qed.

Lemma is_match_returns (p : Primary.row) (s : Secondary.cols) :
  checkable p → ∃ b, is_match p s = Ok b.
Proof.
  intros [[suffix Hsuffix] Hdate].
  unfold is_match, join_predicate, further_checks, released_within_week.
  rewrite Hsuffix, (date_add_days_Ok _ _ Hdate). simpl.
  destruct (_ && _); simpl; [|eauto].
  destruct (released_after_report p s); simpl; [|eauto].
  destruct (_ <=? _)%Z; simpl; [|eauto].
  destruct (amount_predicate p s); simpl; eauto.
Qed.

Lemma state_after_returns
    (primary : list Primary.row) (secondary : list Secondary.cols) (k : nat) :
  Forall checkable primary → k ≤ length primary →
  ∃ st, state_after primary secondary k = Ok st.
Proof.
  intros Hall. induction k as [|k IH]; intros Hk; [by eexists|].
  destruct IH as [st Hst]; [lia|].
  destruct (lookup_lt_is_Some_2 primary k) as [p Hp]; [lia|].
  rewrite (state_after_S _ _ _ _ Hp), Hst. simpl. unfold match_row.
  destruct (first_match_returns p (available st)) as [found ->]; [|simpl; eauto].
  intros j s _. apply is_match_returns.
  rewrite Forall_forall in Hall. apply Hall. by eapply list_elem_of_lookup_2.
Qed.

(** X19.  On frames whose cells have the types the matcher reads them at,
    [match_data] returns a dictionary whenever every primary row has a
    [last_10_digits] cell and a reported date at least seven days before
    [date.max]: every turn of the loop returns, and the labels given to
    [.loc] at the end are labels of the frames. *)
Theorem checkable_frames_never_raise
    (primary : list Primary.row) (secondary : list Secondary.cols) :
  Forall checkable primary →
  (∀ i, i < length primary → ∃ found, turn primary secondary i = Ok found)
  ∧ ∃ out, match_data primary secondary = Ok out.
Proof.
  intros Hall. split.
  - intros i Hi. unfold turn.
    destruct (state_after_returns primary secondary i Hall) as [st ->]; [lia|].
    destruct (lookup_lt_is_Some_2 primary i Hi) as [p Hp]. rewrite Hp.
    cbn [bind]. apply first_match_returns.
    intros j s _. apply is_match_returns.
    rewrite Forall_forall in Hall. apply Hall. by eapply list_elem_of_lookup_2.
  - destruct (state_after_returns primary secondary (length primary) Hall)
      as [st Hst]; [done|].
    pose proof (invariant_after _ _ _ _ (Nat.le_refl _) Hst) as [].
    unfold match_data. rewrite <- state_after_length, Hst. simpl.
    destruct (loc_returns primary (State.unmatched_primary_indices st))
      as [events ->].
    { intros i Hi. by apply inv_unmatched_primary0 in Hi as [? _]. }
    destruct (loc_returns (State.secondary st) (State.unmatched_secondary_indices st))
      as [rewards ->].
    { intros j Hj. apply inv_unmatched_secondary0 in Hj as (s & Hs & _).
      by eapply lookup_lt_Some. }
    simpl. eauto.
Qed.

Lemma checkable_frames_never_raise_witness :
  Forall checkable [example_primary; unpriced_event "E2"]
  ∧ (∃ found,
       turn [example_primary; unpriced_event "E2"] [example_secondary] 1 = Ok found)
  ∧ ∃ out, match_data [example_primary; unpriced_event "E2"] [example_secondary]
           = Ok out.
Proof.
  assert (Forall checkable [example_primary; unpriced_event "E2"]) as Hall.
  { constructor; [|constructor; [|constructor]];
      (split; [by eexists | by vm_compute]). }
  split; [exact Hall|].
  destruct (checkable_frames_never_raise
              [example_primary; unpriced_event "E2"] [example_secondary] Hall)
    as [Hturn Hrun].
  split; [apply Hturn; simpl; lia | exact Hrun].
Defined.

(** ** Rows added at the end of the secondary frame *)

Lemma first_match_app (p : Primary.row) (rows1 rows2 : list (nat * Secondary.row)) :
  first_match p (rows1 ++ rows2) =
  let* found := first_match p rows1 in
  match found with
  | Some j => Ok (Some j)
  | None => first_match p rows2
  end.
Proof.
  induction rows1 as [|[j s] rows1 IH]; simpl; [done|].
  destruct (is_match p (Secondary.data s)) as [[]|e]; simpl; [done | apply IH | done].
Qed.

Lemma first_match_elem (p : Primary.row) (rows : list (nat * Secondary.row)) (j : nat) :
  first_match p rows = Ok (Some j) → ∃ s, (j, s) ∈ rows.
Proof.
  induction rows as [|[j0 s0] rows IH]; simpl; intros H; [done|].
  inv_bind H. destruct a.
  - injection H as <-. exists s0. by left.
  - destruct (IH H) as [s Hs]. exists s. by right.
Qed.

Lemma filter_ext_in {A : Type} (P1 P2 : A → Prop)
    `{!∀ x, Decision (P1 x), !∀ x, Decision (P2 x)} (l : list A) :
  (∀ x, x ∈ l → P1 x ↔ P2 x) → filter P1 l = filter P2 l.
Proof.
  induction l as [|x l IH]; intros Hext; [done|].
  rewrite !filter_cons.
  assert (filter P1 l = filter P2 l) as ->
    by (apply IH; intros y Hy; apply Hext; by right).
  assert (P1 x ↔ P2 x) as Hx by (apply Hext; by left).
  destruct (decide (P1 x)) as [H1|H1], (decide (P2 x)) as [H2|H2];
    [done | by apply Hx in H1 | by apply Hx in H2 | done].
Qed.

Lemma available_extends (st st' : State.t) :
  extends st st' →
  ∃ tail, available st' = available st ++ tail
          ∧ ∀ j s, (j, s) ∈ tail → length (State.secondary st) ≤ j.
Proof.
  intros [[rest Hrest] Hsame]. unfold available, iterrows.
  rewrite Hrest, imap_app, filter_app. eexists. split.
  - f_equal. apply filter_ext_in. intros [j s] Hin. simpl.
    apply (elem_of_iterrows (State.secondary st)) in Hin.
    symmetry. apply Hsame. by eapply lookup_lt_Some.
  - intros j s [_ Hin]%list_elem_of_filter.
    apply elem_of_lookup_imap_1 in Hin as (k & y & [= -> ->] & _). lia.
Qed.

Lemma extends_after
    (primary : list Primary.row) (secondary extra : list Secondary.cols)
    (k : nat) (st st' : State.t) :
  k ≤ length primary →
  state_after primary secondary k = Ok st →
  state_after primary (secondary ++ extra) k = Ok st' →
  extends st st'.
Proof.
  revert st st'. induction k as [|k IH]; intros st st' Hk Hst Hst'.
  - injection Hst as <-. injection Hst' as <-. split; simpl.
    + eexists. by rewrite fmap_app.
    + intros j. rewrite length_fmap, !elem_of_seq, length_app. lia.
  - destruct (lookup_lt_is_Some_2 primary k) as [p Hp]; [lia|].
    rewrite (state_after_S _ _ _ _ Hp) in Hst.
    rewrite (state_after_S _ _ _ _ Hp) in Hst'. inv_bind Hst. inv_bind Hst'.
    rename a into st0, a0 into st0'.
    assert (k ≤ length primary) as Hk' by lia.
    pose proof (IH _ _ Hk' Ha Ha0) as Hext.
    pose proof (invariant_after _ _ _ _ Hk' Ha) as Hinv.
    pose proof (invariant_after _ _ _ _ Hk' Ha0) as Hinv'.
    destruct (available_extends _ _ Hext) as (tail & Hav & Htail).
    destruct Hext as [[rest Hrest] Hsame].
    unfold match_row in Hst, Hst'. rewrite Hav, first_match_app in Hst'.
    inv_bind Hst. inv_bind Hst'. inv_bind Ha2.
    injection Hst as <-. injection Hst' as <-.
    assert (a1 = a) as -> by congruence.
    destruct a as [j|].
    + injection Ha2 as <-.
      destruct (first_match_elem _ _ _ Ha1) as (s & [Hs _]%elem_of_available).
      apply lookup_lt_Some in Hs. split.
      * exists rest. simpl. unfold set_event_id. by rewrite Hrest, alter_app_l.
      * intros j'. simpl. unfold set_event_id. rewrite length_alter. intros Hj'.
        rewrite !elem_of_discard
          by (apply (inv_secondary_NoDup _ _ _ _ Hinv)
              || apply (inv_secondary_NoDup _ _ _ _ Hinv')).
        by rewrite (Hsame j' Hj').
    + destruct a0 as [j'|]; [|by split; [exists rest|]].
      destruct (first_match_elem _ _ _ Ha2) as (s & Hs%Htail). split.
      * eexists. simpl. unfold set_event_id. by rewrite Hrest, alter_app_r_alt.
      * intros j Hj. simpl.
        rewrite elem_of_discard by apply (inv_secondary_NoDup _ _ _ _ Hinv').
        rewrite (Hsame j Hj). split; [intros ?; split; [done | lia] | by intros [? _]].
Qed.

(** X20.  Rows added at the end of the secondary frame keep every
    assignment: when both runs return, each primary row that was assigned a
    secondary row is assigned the same one, and every secondary row that
    carried an event id carries the same one. *)
Theorem later_secondary_rows_keep_assignments
    (primary : list Primary.row) (secondary extra : list Secondary.cols)
    (out out' : Output.t) :
  match_data primary secondary = Ok out →
  match_data primary (secondary ++ extra) = Ok out' →
  (∀ i j, assigned primary secondary i j →
          assigned primary (secondary ++ extra) i j)
  ∧ ∀ j r flag e,
      Output.secondary out !! j = Some (r, flag) →
      Secondary.Event_ID r = Some e →
      Output.secondary out' !! j = Some (r, true).
Proof.
  intros Hout Hout'.
  assert (∀ i j, assigned primary secondary i j →
                 assigned primary (secondary ++ extra) i j) as Hkept.
  { intros i j Ha.
    destruct (assigned_inv _ _ _ _ _ Hout Ha) as (p & _ & Hp & _).
    assert (i ≤ length primary) as Hi
      by (apply Nat.lt_le_incl; by eapply lookup_lt_Some).
    unfold assigned, turn in *. rewrite Hp in *. inv_bind Ha. rename a into st.
    destruct (match_data_Ok _ _ _ Hout') as (stn & _ & Hstn & _).
    destruct (state_after_le _ _ _ _ _ Hi (Nat.le_refl _) Hstn) as [st' Hst'].
    rewrite Hst'. cbn [bind].
    destruct (available_extends _ _ (extends_after _ _ _ _ _ _ Hi Ha0 Hst'))
      as (tail & -> & _).
    by rewrite first_match_app, Ha. }
  split; [done|].
  intros j r flag e Hr He.
  destruct (output_event_id _ _ _ Hout _ _ _ _ Hr He) as (i & p & Hp & Ha & ->).
  destruct (output_assigned _ _ _ Hout' i j p Hp (Hkept _ _ Ha)) as (r' & Hr' & He').
  rewrite Hr'. do 2 f_equal.
  destruct r as [c ?], r' as [c' ?]. simpl in *.
  assert (c = c') as ->; [|congruence].
  pose proof (output_secondary_data _ _ _ Hout) as Hd.
  pose proof (output_secondary_data _ _ _ Hout') as Hd'.
  assert (secondary !! j = Some c) as Hc
    by (by rewrite <- Hd, list_lookup_fmap, Hr).
  assert ((secondary ++ extra) !! j = Some c') as Hc'
    by (by rewrite <- Hd', list_lookup_fmap, Hr').
  rewrite (lookup_app_l_Some _ _ _ _ Hc) in Hc'. by injection Hc'.
Qed.

Lemma later_secondary_rows_keep_assignments_witness :
  ∃ out out',
    match_data [vip_event "E1"; vip_event "E2"] [vip_payout 60 3; vip_payout 50 3]
      = Ok out
    ∧ match_data [vip_event "E1"; vip_event "E2"]
                 ([vip_payout 60 3; vip_payout 50 3] ++ [vip_payout 50 2])
      = Ok out'
    ∧ assigned [vip_event "E1"; vip_event "E2"]
               ([vip_payout 60 3; vip_payout 50 3] ++ [vip_payout 50 2]) 0 1
    ∧ labels (Output.missing_events out) = [1]
    ∧ labels (Output.missing_events out') = [].
Proof.
  eexists. eexists. split; [reflexivity|]. split; [reflexivity|].
  split; [|split; reflexivity].
  destruct (later_secondary_rows_keep_assignments
              [vip_event "E1"; vip_event "E2"] [vip_payout 60 3; vip_payout 50 3]
              [vip_payout 50 2] _ _ eq_refl eq_refl) as [Hkept _].
  apply Hkept. reflexivity.
Defined.
